(** * The lane-runner simulation engine of [src/components/GameEngine.tsx]

    A shallow embedding of the game logic held in the component's refs and
    in the React [GameState], together with the properties the
    specification states about it.

    Conventions of the embedding.
    - JavaScript numbers that carry times, positions and speeds are exact
      rationals ([Q]); integer-valued numbers (score, lives, lane) are [Z].
      Comparisons are the source's comparisons; numeric equalities on [Q]
      are stated with [==].
    - The environment's answers ([performance.now()], [Math.random()],
      the gesture returned by [detectGesture]) are inputs of the functions
      that read them.
    - [setGameState(prev => ...)] is applied to the state at the call, and
      React's effects whose dependencies changed run when the handling of
      an event ends ([commitEffects]).
    - The input effect is modelled for a pose sample that is present; a
      missing sample leaves the state as it is.  The effect runs when a
      sample arrives ([Pose]) and once more after a render in which
      [isPlaying], [gameOver] or [isPaused] changed, on the sample the
      component still holds.  [step] leaves that second run to a [Pose]
      event following the change, so that [reachable] contains its
      outcome; [stepHeld] performs it in place.
    - Division follows [Q] (x / 0 = 0).  The divisors of the source are
      constants and [speed / 15], which is at least 1 whenever the score
      is not negative, as it is in every reachable state.
    - Clouds, limb poses and the lava texture offset are cosmetic state
      that no operation below reads; they are left out.  The decorations,
      which share no ref with the obstacles, the player or the score, have
      their own state ([Decor]) and their own step ([updateDecorations]),
      beside the frame of the obstacles. *)

From Stdlib Require Import ZArith QArith Qminmax Qround Qabs Lia Lqa Bool.
From stdpp Require Import base strings gmap list.

Local Open Scope Z_scope.

(** ** Comparisons on numbers *)

(** [x < y] as the boolean the source branches on. *)
Definition Qltb (x y : Q) : bool := negb (Qle_bool y x).

(** ** [src/constants.ts] *)

Module GAME_CONSTANTS.
Definition LANE_WIDTH : Q := 7 # 2.
Definition JUMP_HEIGHT : Q := 7 # 2.
Definition JUMP_DURATION : Q := 7 # 10.
Definition START_SPEED : Q := 15.
Definition MAX_SPEED : Q := 40.
Definition SPAWN_DISTANCE : Q := -60.
Definition SPAWN_INTERVAL_BASE : Q := 3 # 2.
Definition INVINCIBILITY_DURATION : Q := 2000.
End GAME_CONSTANTS.
Import GAME_CONSTANTS.

(** ** Data model ([../types], as the engine and [App.tsx] use it) *)

Inductive Gesture : Type := JUMP | LEFT | RIGHT | NONE.

Record Player3D : Type := mkPlayer {
  lane : Z;
  isJumping : bool;
  jumpStartTime : Q;
  yPosition : Q
}.

Record Obstacle3D : Type := mkObstacle {
  obs_id : string;
  obs_lane : Z;
  obs_z : Q;
  obs_passed : bool
}.

Record GameState : Type := mkGameState {
  isPlaying : bool;
  isPaused : bool;
  score : Z;
  gameOver : bool;
  speed : Q;
  cameraReady : bool;
  lastLaneChange : Q;
  lives : Z
}.

(** A [THREE.Mesh] of an obstacle: the identity of the object and the
    coordinates the engine writes. *)
Record Mesh : Type := mkMesh {
  mesh_handle : nat;
  mesh_x : Q;
  mesh_z : Q
}.

(** The player's [THREE.Group]: the fields the engine writes. *)
Record PlayerGroup : Type := mkGroup {
  group_x : Q;
  group_y : Q;
  group_visible : bool
}.

(** The refs of the component, the React state, and two logs: the number
    of [playDamageSound()] calls and the number of objects allocated so
    far (the identity of the next [new THREE.Mesh]). *)
Record Engine : Type := mkEngine {
  playerStateRef : Player3D;
  playerGroupRef : option PlayerGroup;
  sceneRef : option (list nat);
  lavaMaterialRef : bool;
  obstaclesRef : list Obstacle3D;
  obstacleMeshesRef : gmap string Mesh;
  speedRef : Q;
  scoreRef : Z;
  lastTimeRef : Q;
  lastSpawnTimeRef : Q;
  lastHitTimeRef : Q;
  isPlayingRef : bool;
  isPausedRef : bool;
  gameState : GameState;
  damageSounds : nat;
  allocated : nat
}.

(** ** Field updates *)

Definition set_playerState (p : Player3D) (e : Engine) : Engine :=
  mkEngine p (playerGroupRef e) (sceneRef e) (lavaMaterialRef e)
    (obstaclesRef e) (obstacleMeshesRef e) (speedRef e) (scoreRef e)
    (lastTimeRef e) (lastSpawnTimeRef e) (lastHitTimeRef e)
    (isPlayingRef e) (isPausedRef e) (gameState e) (damageSounds e)
    (allocated e).

Definition set_playerGroup (g : option PlayerGroup) (e : Engine) : Engine :=
  mkEngine (playerStateRef e) g (sceneRef e) (lavaMaterialRef e)
    (obstaclesRef e) (obstacleMeshesRef e) (speedRef e) (scoreRef e)
    (lastTimeRef e) (lastSpawnTimeRef e) (lastHitTimeRef e)
    (isPlayingRef e) (isPausedRef e) (gameState e) (damageSounds e)
    (allocated e).

Definition set_scene (s : option (list nat)) (e : Engine) : Engine :=
  mkEngine (playerStateRef e) (playerGroupRef e) s (lavaMaterialRef e)
    (obstaclesRef e) (obstacleMeshesRef e) (speedRef e) (scoreRef e)
    (lastTimeRef e) (lastSpawnTimeRef e) (lastHitTimeRef e)
    (isPlayingRef e) (isPausedRef e) (gameState e) (damageSounds e)
    (allocated e).

Definition set_lavaMaterial (b : bool) (e : Engine) : Engine :=
  mkEngine (playerStateRef e) (playerGroupRef e) (sceneRef e) b
    (obstaclesRef e) (obstacleMeshesRef e) (speedRef e) (scoreRef e)
    (lastTimeRef e) (lastSpawnTimeRef e) (lastHitTimeRef e)
    (isPlayingRef e) (isPausedRef e) (gameState e) (damageSounds e)
    (allocated e).

Definition set_obstacles (l : list Obstacle3D) (e : Engine) : Engine :=
  mkEngine (playerStateRef e) (playerGroupRef e) (sceneRef e)
    (lavaMaterialRef e) l (obstacleMeshesRef e) (speedRef e) (scoreRef e)
    (lastTimeRef e) (lastSpawnTimeRef e) (lastHitTimeRef e)
    (isPlayingRef e) (isPausedRef e) (gameState e) (damageSounds e)
    (allocated e).

Definition set_obstacleMeshes (m : gmap string Mesh) (e : Engine) : Engine :=
  mkEngine (playerStateRef e) (playerGroupRef e) (sceneRef e)
    (lavaMaterialRef e) (obstaclesRef e) m (speedRef e) (scoreRef e)
    (lastTimeRef e) (lastSpawnTimeRef e) (lastHitTimeRef e)
    (isPlayingRef e) (isPausedRef e) (gameState e) (damageSounds e)
    (allocated e).

Definition set_speed (v : Q) (e : Engine) : Engine :=
  mkEngine (playerStateRef e) (playerGroupRef e) (sceneRef e)
    (lavaMaterialRef e) (obstaclesRef e) (obstacleMeshesRef e) v
    (scoreRef e) (lastTimeRef e) (lastSpawnTimeRef e) (lastHitTimeRef e)
    (isPlayingRef e) (isPausedRef e) (gameState e) (damageSounds e)
    (allocated e).

Definition set_score (n : Z) (e : Engine) : Engine :=
  mkEngine (playerStateRef e) (playerGroupRef e) (sceneRef e)
    (lavaMaterialRef e) (obstaclesRef e) (obstacleMeshesRef e) (speedRef e)
    n (lastTimeRef e) (lastSpawnTimeRef e) (lastHitTimeRef e)
    (isPlayingRef e) (isPausedRef e) (gameState e) (damageSounds e)
    (allocated e).

Definition set_lastTime (t : Q) (e : Engine) : Engine :=
  mkEngine (playerStateRef e) (playerGroupRef e) (sceneRef e)
    (lavaMaterialRef e) (obstaclesRef e) (obstacleMeshesRef e) (speedRef e)
    (scoreRef e) t (lastSpawnTimeRef e) (lastHitTimeRef e)
    (isPlayingRef e) (isPausedRef e) (gameState e) (damageSounds e)
    (allocated e).

Definition set_lastSpawnTime (t : Q) (e : Engine) : Engine :=
  mkEngine (playerStateRef e) (playerGroupRef e) (sceneRef e)
    (lavaMaterialRef e) (obstaclesRef e) (obstacleMeshesRef e) (speedRef e)
    (scoreRef e) (lastTimeRef e) t (lastHitTimeRef e)
    (isPlayingRef e) (isPausedRef e) (gameState e) (damageSounds e)
    (allocated e).

Definition set_lastHitTime (t : Q) (e : Engine) : Engine :=
  mkEngine (playerStateRef e) (playerGroupRef e) (sceneRef e)
    (lavaMaterialRef e) (obstaclesRef e) (obstacleMeshesRef e) (speedRef e)
    (scoreRef e) (lastTimeRef e) (lastSpawnTimeRef e) t
    (isPlayingRef e) (isPausedRef e) (gameState e) (damageSounds e)
    (allocated e).

Definition set_isPlayingRef (b : bool) (e : Engine) : Engine :=
  mkEngine (playerStateRef e) (playerGroupRef e) (sceneRef e)
    (lavaMaterialRef e) (obstaclesRef e) (obstacleMeshesRef e) (speedRef e)
    (scoreRef e) (lastTimeRef e) (lastSpawnTimeRef e) (lastHitTimeRef e)
    b (isPausedRef e) (gameState e) (damageSounds e) (allocated e).

Definition set_isPausedRef (b : bool) (e : Engine) : Engine :=
  mkEngine (playerStateRef e) (playerGroupRef e) (sceneRef e)
    (lavaMaterialRef e) (obstaclesRef e) (obstacleMeshesRef e) (speedRef e)
    (scoreRef e) (lastTimeRef e) (lastSpawnTimeRef e) (lastHitTimeRef e)
    (isPlayingRef e) b (gameState e) (damageSounds e) (allocated e).

Definition set_gameState (gs : GameState) (e : Engine) : Engine :=
  mkEngine (playerStateRef e) (playerGroupRef e) (sceneRef e)
    (lavaMaterialRef e) (obstaclesRef e) (obstacleMeshesRef e) (speedRef e)
    (scoreRef e) (lastTimeRef e) (lastSpawnTimeRef e) (lastHitTimeRef e)
    (isPlayingRef e) (isPausedRef e) gs (damageSounds e) (allocated e).

Definition set_damageSounds (n : nat) (e : Engine) : Engine :=
  mkEngine (playerStateRef e) (playerGroupRef e) (sceneRef e)
    (lavaMaterialRef e) (obstaclesRef e) (obstacleMeshesRef e) (speedRef e)
    (scoreRef e) (lastTimeRef e) (lastSpawnTimeRef e) (lastHitTimeRef e)
    (isPlayingRef e) (isPausedRef e) (gameState e) n (allocated e).

Definition set_allocated (n : nat) (e : Engine) : Engine :=
  mkEngine (playerStateRef e) (playerGroupRef e) (sceneRef e)
    (lavaMaterialRef e) (obstaclesRef e) (obstacleMeshesRef e) (speedRef e)
    (scoreRef e) (lastTimeRef e) (lastSpawnTimeRef e) (lastHitTimeRef e)
    (isPlayingRef e) (isPausedRef e) (gameState e) (damageSounds e) n.

(** ** Input handling (GameEngine.tsx, lines 320-337) *)

(** The body of the effect once its guard has passed: [gesture] is what
    [detectGesture] returned and [now] what [performance.now()] returned. *)
Definition applyGesture (gesture : Gesture) (now : Q) (p : Player3D) : Player3D :=
  match gesture with
  | JUMP =>
      if negb (isJumping p)
      then mkPlayer (lane p) true now (yPosition p)
      else p
  | LEFT =>
      let currentLane := lane p in
      if 0 <? currentLane
      then mkPlayer (currentLane - 1) (isJumping p) (jumpStartTime p) (yPosition p)
      else p
  | RIGHT =>
      let currentLane := lane p in
      if currentLane <? 2
      then mkPlayer (currentLane + 1) (isJumping p) (jumpStartTime p) (yPosition p)
      else p
  | NONE => p
  end.

Definition inputEffect (gesture : Gesture) (now : Q) (e : Engine) : Engine :=
  let gs := gameState e in
  if negb (isPlaying gs) || gameOver gs || isPaused gs then e
  else set_playerState (applyGesture gesture now (playerStateRef e)) e.

(** ** Spawning (lines 515-542) *)

(** [rLane] and [id] are the results of [Math.random()] and of
    [Math.random().toString()], in the order the source draws them. *)
Definition spawnObstacle (z rLane : Q) (id : string) (e : Engine) : Engine :=
  match sceneRef e with
  | None => e
  | Some scene =>
      if negb (lavaMaterialRef e) then e
      else
        let lane := Qfloor (rLane * 3) in
        let e1 :=
          set_obstacles (obstaclesRef e ++ [mkObstacle id lane z false]) e in
        let mesh :=
          mkMesh (allocated e) ((inject_Z lane - 1) * LANE_WIDTH)%Q z in
        let e2 := set_allocated (S (allocated e)) e1 in
        let e3 := set_scene (Some (scene ++ [mesh_handle mesh])) e2 in
        set_obstacleMeshes (<[id := mesh]> (obstacleMeshesRef e3)) e3
  end.

(** ** Difficulty (lines 547-551) *)

Definition difficulty (score : Z) : Q :=
  Qmin MAX_SPEED (START_SPEED + inject_Z score / 50).

(** ** Player movement (lines 568-616) *)

Definition jumpPhysics (time : Q) (player : Player3D) : Player3D :=
  if isJumping player then
    let jumpProgress := ((time - jumpStartTime player) / 1000)%Q in
    if Qltb jumpProgress JUMP_DURATION then
      let t := (jumpProgress / JUMP_DURATION)%Q in
      mkPlayer (lane player) (isJumping player) (jumpStartTime player)
        (JUMP_HEIGHT * 4 * t * (1 - t))%Q
    else mkPlayer (lane player) false (jumpStartTime player) 0%Q
  else player.

Definition updatePlayer (dt time : Q) (e : Engine) : Engine :=
  let player := playerStateRef e in
  let targetX := ((inject_Z (lane player) - 1) * LANE_WIDTH)%Q in
  match playerGroupRef e with
  | None => e
  | Some g =>
      let x := (group_x g + (targetX - group_x g) * 10 * dt)%Q in
      let player' := jumpPhysics time player in
      let visible :=
        if Qltb (time - lastHitTimeRef e) INVINCIBILITY_DURATION
        then Z.rem (Qfloor (time / 100)) 2 =? 0
        else true in
      set_playerGroup (Some (mkGroup x (yPosition player') visible))
        (set_playerState player' e)
  end.

(** ** Collision (lines 666-688) *)

(** The functional update handed to [setGameState] (lines 678-684);
    [scoreNow] is [scoreRef.current]. *)
Definition loseLife (scoreNow : Z) (prev : GameState) : GameState :=
  let newLives := lives prev - 1 in
  if newLives <=? 0 then
    mkGameState (isPlaying prev) (isPaused prev) scoreNow true (speed prev)
      (cameraReady prev) (lastLaneChange prev) 0
  else
    mkGameState (isPlaying prev) (isPaused prev) (score prev) (gameOver prev)
      (speed prev) (cameraReady prev) (lastLaneChange prev) newLives.

(** Lines 673-685: the invincibility gate and the application of a hit. *)
Definition applyHit (now : Q) (e : Engine) : Engine :=
  if Qltb INVINCIBILITY_DURATION (now - lastHitTimeRef e) then
    let e1 := set_damageSounds (S (damageSounds e)) e in
    let e2 := set_lastHitTime now e1 in
    set_gameState (loseLife (scoreRef e2) (gameState e2)) e2
  else e.

(** Lines 667-670: the obstacle is in the band, in the player's lane, and
    the player is below the height that clears it. *)
Definition confirmedCollision (obs : Obstacle3D) (player : Player3D) : bool :=
  if Qltb (-1) (obs_z obs) && Qltb (obs_z obs) 1 then
    if obs_lane obs =? lane player then
      Qltb (yPosition player) (11 # 10)
    else false
  else false.

(** The collision block for one obstacle.  [clock k] is the value of the
    [k]-th call of [performance.now()] in this frame and [calls] the number
    of calls made so far. *)
Definition checkCollision (clock : nat -> Q) (calls : nat) (obs : Obstacle3D)
    (e : Engine) : Engine * nat :=
  if confirmedCollision obs (playerStateRef e) then
    let now := clock calls in
    (applyHit now e, S calls)
  else (e, calls).

(** ** One obstacle of the [forEach] (lines 658-697) *)

Record Loop : Type := mkLoop {
  lp_engine : Engine;
  lp_calls : nat;
  lp_toRemove : list string;
  lp_done : list Obstacle3D
}.

Definition syncMesh (obs : Obstacle3D) (e : Engine) : Engine :=
  match obstacleMeshesRef e !! obs_id obs with
  | Some mesh =>
      set_obstacleMeshes
        (<[obs_id obs := mkMesh (mesh_handle mesh) (mesh_x mesh) (obs_z obs)]>
           (obstacleMeshesRef e)) e
  | None => e
  end.

(** Line 659: [obs.z += speedRef.current * dt]. *)
Definition advance (v dt : Q) (obs : Obstacle3D) : Obstacle3D :=
  mkObstacle (obs_id obs) (obs_lane obs) (obs_z obs + v * dt)%Q
    (obs_passed obs).

Definition processObstacle (dt : Q) (clock : nat -> Q) (lp : Loop)
    (obs : Obstacle3D) : Loop :=
  let e := lp_engine lp in
  let obs1 := advance (speedRef e) dt obs in
  let e1 := syncMesh obs1 e in
  let '(e2, calls) := checkCollision clock (lp_calls lp) obs1 e1 in
  if Qltb 5 (obs_z obs1) then
    let '(e3, obs2) :=
      if negb (obs_passed obs1)
      then (set_score (scoreRef e2 + 10) e2,
            mkObstacle (obs_id obs1) (obs_lane obs1) (obs_z obs1) true)
      else (e2, obs1) in
    mkLoop e3 calls (lp_toRemove lp ++ [obs_id obs2]) (lp_done lp ++ [obs2])
  else mkLoop e2 calls (lp_toRemove lp) (lp_done lp ++ [obs1]).

(** Lines 699-707, for one id of [obstaclesToRemove]. *)
Definition removeObstacleMesh (e : Engine) (id : string) : Engine :=
  let e1 :=
    match obstacleMeshesRef e !! id, sceneRef e with
    | Some mesh, Some scene =>
        set_scene (Some (filter (λ h, h ≠ mesh_handle mesh) scene)) e
    | _, _ => e
    end in
  set_obstacleMeshes (delete id (obstacleMeshesRef e1)) e1.

(** ** The frame (lines 544-709) *)

Record FrameEnv : Type := mkFrameEnv {
  rndLane : Q;
  rndId : string;
  nowAt : nat -> Q
}.

Definition spawnDue (time : Q) (e : Engine) : bool :=
  Qltb (SPAWN_INTERVAL_BASE * 1000 / (speedRef e / 15))%Q
       (time - lastSpawnTimeRef e)%Q.

Definition obstacleLoop (dt : Q) (clock : nat -> Q) (e : Engine) : Loop :=
  foldl (processObstacle dt clock) (mkLoop e O [] []) (obstaclesRef e).

Definition retire (lp : Loop) : Engine :=
  let e := set_obstacles (lp_done lp) (lp_engine lp) in
  let e1 := foldl removeObstacleMesh e (lp_toRemove lp) in
  set_obstacles
    (filter (λ o, obs_id o ∉ lp_toRemove lp) (obstaclesRef e1)) e1.

(** Steps 1, 3 and the spawn of step 5: everything that precedes the
    [forEach] over the obstacles. *)
Definition beforeObstacles (dt time : Q) (env : FrameEnv) (e : Engine) : Engine :=
  let e1 := set_speed (difficulty (scoreRef e)) e in
  let e2 := updatePlayer dt time e1 in
  if spawnDue time e2
  then set_lastSpawnTime time
         (spawnObstacle SPAWN_DISTANCE (rndLane env) (rndId env) e2)
  else e2.

Definition updateGameLogic (dt time : Q) (env : FrameEnv) (e : Engine) : Engine :=
  retire (obstacleLoop dt (nowAt env) (beforeObstacles dt time env e)).

(** ** The animation callback (lines 259-277) *)

Definition animate (time : Q) (env : FrameEnv) (e : Engine) : Engine :=
  if negb (isPlayingRef e) then e
  else if isPausedRef e then set_lastTime time e
  else
    let delta := ((time - lastTimeRef e) / 1000)%Q in
    updateGameLogic delta time env (set_lastTime time e).

(** ** The application shell ([src/App.tsx]) *)

Definition initialGameState : GameState :=
  mkGameState false false 0 false 0 false 0 3.

Definition handleStart (prev : GameState) : GameState :=
  mkGameState true false 0 false (speed prev) (cameraReady prev)
    (lastLaneChange prev) 3.

Definition handleRestart (prev : GameState) : GameState :=
  mkGameState true false 0 false (speed prev) (cameraReady prev)
    (lastLaneChange prev) 3.

Definition handlePause (prev : GameState) : GameState :=
  mkGameState (isPlaying prev) true (score prev) (gameOver prev) (speed prev)
    (cameraReady prev) (lastLaneChange prev) (lives prev).

Definition handleResume (prev : GameState) : GameState :=
  mkGameState (isPlaying prev) false (score prev) (gameOver prev) (speed prev)
    (cameraReady prev) (lastLaneChange prev) (lives prev).

Definition onCameraReady (prev : GameState) : GameState :=
  mkGameState (isPlaying prev) (isPaused prev) (score prev) (gameOver prev)
    (speed prev) true (lastLaneChange prev) (lives prev).

(** ** React effects of the component *)

(** The game-logic part of the initialisation effect (lines 63-247): a new
    scene with its player group and lava material, and the reset of lines
    226-233.  The mesh map and [lastSpawnTimeRef] are not reset. *)
Definition initEffect (now : Q) (e : Engine) : Engine :=
  mkEngine (mkPlayer 1 false 0 0) (Some (mkGroup 0 0 true)) (Some []) true
    [] (obstacleMeshesRef e) START_SPEED 0 now (lastSpawnTimeRef e) 0
    (isPlayingRef e) (isPausedRef e) (gameState e) (damageSounds e)
    (allocated e).

(** The animation-loop effect (lines 251-257) and its cleanup (282). *)
Definition animationEffect (now : Q) (e : Engine) : Engine :=
  let gs := gameState e in
  if negb (isPlaying gs) || gameOver gs then e
  else
    match sceneRef e with
    | None => e
    | Some _ =>
        set_lastTime now
          (set_isPausedRef (isPaused gs) (set_isPlayingRef true e))
    end.

Definition animationCleanup (old : GameState) (e : Engine) : Engine :=
  if negb (isPlaying old) || gameOver old then e
  else match sceneRef e with
       | None => e
       | Some _ => set_isPlayingRef false e
       end.

(** The effects React runs after a render in which the state went from
    [old] to [gameState e]: those with dependencies
    [isPlaying, gameOver] when one of the two changed (cleanups first),
    and the pause synchronisation (lines 288-290) when [isPaused] did.
    The input effect, which depends on the three of them, is not run
    here: see [inputRerun]. *)
Definition commitEffects (old : GameState) (now : Q) (e : Engine) : Engine :=
  let new := gameState e in
  let e1 :=
    if eqb (isPlaying old) (isPlaying new) && eqb (gameOver old) (gameOver new)
    then e
    else animationEffect now (initEffect now (animationCleanup old e)) in
  if eqb (isPaused old) (isPaused new) then e1
  else set_isPausedRef (isPaused new) e1.

(** ** Sessions *)

Inductive Event : Type :=
  | Start
  | Restart
  | Pause
  | Resume
  | CameraReady
  | Pose (gesture : Gesture) (now : Q)
  | Frame (time : Q) (env : FrameEnv).

Definition handle (ev : Event) (e : Engine) : Engine :=
  match ev with
  | Start => set_gameState (handleStart (gameState e)) e
  | Restart => set_gameState (handleRestart (gameState e)) e
  | Pause => set_gameState (handlePause (gameState e)) e
  | Resume => set_gameState (handleResume (gameState e)) e
  | CameraReady => set_gameState (onCameraReady (gameState e)) e
  | Pose gesture now => inputEffect gesture now e
  | Frame time env => animate time env e
  end.

(** One event and the commit that follows it; [effectNow] is the clock the
    effects read. *)
Definition step (e : Engine) (ev : Event * Q) : Engine :=
  commitEffects (gameState e) (snd ev) (handle (fst ev) e).

(** The component after its first render: the initial state of
    [App.tsx], the initial values of the refs, and the initialisation
    effect run once. *)
Definition mount (now : Q) : Engine :=
  initEffect now
    (mkEngine (mkPlayer 1 false 0 0) None None false [] ∅ START_SPEED 0 0 0 0
       false false initialGameState O O).

Definition run (e : Engine) (evs : list (Event * Q)) : Engine :=
  foldl step e evs.

Inductive reachable : Engine -> Prop :=
  | reachable_mount now : reachable (mount now)
  | reachable_step e ev : reachable e -> reachable (step e ev).

(** The input effect (lines 320-337) lists [isPlaying], [gameOver] and
    [isPaused] among its dependencies: after a render in which one of them
    changed it runs again, last of the effects, on the pose sample the
    component holds.  [held] is that sample as the effect reads it: the
    gesture [detectGesture] returns for it and the value of
    [performance.now()], or [None] while [poseData] is null. *)
Definition inputRerun (old : GameState) (held : option (Gesture * Q))
    (e : Engine) : Engine :=
  let new := gameState e in
  if eqb (isPlaying old) (isPlaying new) && eqb (gameOver old) (gameOver new)
     && eqb (isPaused old) (isPaused new)
  then e
  else
    match held with
    | Some (gesture, now) => inputEffect gesture now e
    | None => e
    end.

(** One event, the commit that follows it, and the input effect run again
    where the commit changed one of its dependencies. *)
Definition stepHeld (e : Engine) (ev : Event * Q)
    (held : option (Gesture * Q)) : Engine :=
  inputRerun (gameState e) held (step e ev).

(** * Decorations (lines 475-513 and 618-647)

    The records of the decorations, their position in the scene and their
    life cycle.  The geometry, scale and materials of a decoration's mesh
    are left out.  A rotation is kept in units of pi: the source's
    [Math.random() * Math.PI * 2] is the draw times 2. *)

Inductive DecorationType : Type := tree | grass | flower.

Record Decoration3D : Type := mkDecoration {
  dec_id : string;
  dec_x : Q;
  dec_z : Q;
  dec_type : DecorationType;
  dec_rotation : Q
}.

(** The [THREE.Group] of a decoration: its identity and the coordinates
    the engine writes. *)
Record DecorMesh : Type := mkDecorMesh {
  dmesh_handle : nat;
  dmesh_x : Q;
  dmesh_z : Q
}.

(** The refs of the decorations, with the decoration groups the scene
    holds ([None]: no scene) and the number of groups created so far. *)
Record Decor : Type := mkDecor {
  decorationsRef : list Decoration3D;
  decorationMeshesRef : gmap string DecorMesh;
  lastDecorSpawnTimeRef : Q;
  decorScene : option (list nat);
  decorAllocated : nat
}.

(** The draws of one [spawnDecoration], in the order of the source: the
    jitter of z in the caller, the side, the offset, the type, the id and
    the rotation. *)
Record DecorDraws : Type := mkDecorDraws {
  rndJitter : Q;
  rndSide : Q;
  rndOffset : Q;
  rndType : Q;
  rndDecorId : string;
  rndRotation : Q
}.

(** Lines 479-482. *)
Definition decorX (side offset : Q) : Q :=
  let isLeft := Qltb (1 # 2) side in
  let baseOffset := 8%Q in
  let randomOffset := (offset * 50)%Q in
  if isLeft then (- (baseOffset + randomOffset))%Q
  else (baseOffset + randomOffset)%Q.

(** Lines 485-489. *)
Definition decorType (rand : Q) : DecorationType :=
  if Qltb (3 # 4) rand then tree
  else if Qltb (2 # 5) rand then flower
  else grass.

Definition spawnDecoration (z : Q) (dr : DecorDraws) (d : Decor) : Decor :=
  match decorScene d with
  | None => d
  | Some scene =>
      let x := decorX (rndSide dr) (rndOffset dr) in
      let type := decorType (rndType dr) in
      let id := rndDecorId dr in
      let decoration := mkDecoration id x z type (rndRotation dr * 2)%Q in
      mkDecor (decorationsRef d ++ [decoration])
        (<[id := mkDecorMesh (decorAllocated d) x z]> (decorationMeshesRef d))
        (lastDecorSpawnTimeRef d)
        (Some (scene ++ [decorAllocated d]))
        (S (decorAllocated d))
  end.

(** Line 630. *)
Definition advanceDecor (v dt : Q) (dec : Decoration3D) : Decoration3D :=
  mkDecoration (dec_id dec) (dec_x dec) (dec_z dec + v * dt)%Q (dec_type dec)
    (dec_rotation dec).

(** The state of the [forEach] over the decorations (lines 628-638). *)
Record DecorLoop : Type := mkDecorLoop {
  dl_meshes : gmap string DecorMesh;
  dl_toRemove : list string;
  dl_done : list Decoration3D
}.

Definition processDecoration (v dt : Q) (dl : DecorLoop)
    (dec : Decoration3D) : DecorLoop :=
  let dec1 := advanceDecor v dt dec in
  let meshes :=
    match dl_meshes dl !! dec_id dec1 with
    | Some mesh =>
        <[dec_id dec1 := mkDecorMesh (dmesh_handle mesh) (dmesh_x mesh)
                           (dec_z dec1)]> (dl_meshes dl)
    | None => dl_meshes dl
    end in
  if Qltb 20 (dec_z dec1)
  then mkDecorLoop meshes (dl_toRemove dl ++ [dec_id dec1])
         (dl_done dl ++ [dec1])
  else mkDecorLoop meshes (dl_toRemove dl) (dl_done dl ++ [dec1]).

(** Lines 640-646, for one id of [decorsToRemove]. *)
Definition removeDecorMesh (d : Decor) (id : string) : Decor :=
  let scene :=
    match decorationMeshesRef d !! id, decorScene d with
    | Some mesh, Some scene =>
        Some (filter (λ h, h ≠ dmesh_handle mesh) scene)
    | _, _ => decorScene d
    end in
  mkDecor (decorationsRef d) (delete id (decorationMeshesRef d))
    (lastDecorSpawnTimeRef d) scene (decorAllocated d).

(** Step 4 of the frame (lines 618-647); [v] is [speedRef.current]. *)
Definition updateDecorations (v dt time : Q) (dr1 dr2 : DecorDraws)
    (d : Decor) : Decor :=
  let d1 :=
    if Qltb (SPAWN_INTERVAL_BASE * 1000 / (v / 15) / 8)%Q
            (time - lastDecorSpawnTimeRef d)%Q
    then
      let d' :=
        spawnDecoration (SPAWN_DISTANCE - rndJitter dr2 * 20)%Q dr2
          (spawnDecoration (SPAWN_DISTANCE - rndJitter dr1 * 20)%Q dr1 d) in
      mkDecor (decorationsRef d') (decorationMeshesRef d') time
        (decorScene d') (decorAllocated d')
    else d in
  let dl :=
    foldl (processDecoration v dt)
      (mkDecorLoop (decorationMeshesRef d1) [] []) (decorationsRef d1) in
  let d2 :=
    mkDecor (dl_done dl) (dl_meshes dl) (lastDecorSpawnTimeRef d1)
      (decorScene d1) (decorAllocated d1) in
  let d3 := foldl removeDecorMesh d2 (dl_toRemove dl) in
  mkDecor (filter (λ x, dec_id x ∉ dl_toRemove dl) (decorationsRef d3))
    (decorationMeshesRef d3) (lastDecorSpawnTimeRef d3) (decorScene d3)
    (decorAllocated d3).

(** * Definitions used in the statements *)

(** ** The specification's wording *)

(** The speed as the specification words it. *)
Definition clamp (x lo hi : Q) : Q := Qmax lo (Qmin x hi).

Definition spec_speed (score : Z) : Q :=
  clamp (START_SPEED + inject_Z score / 50) START_SPEED MAX_SPEED.

(** The parabola of the specification. *)
Definition jumpCurve (t : Q) : Q := (JUMP_HEIGHT * 4 * t * (1 - t))%Q.

(** The condition of a hit, as the specification words it. *)
Definition hitCondition (obs : Obstacle3D) (player : Player3D)
    (now lastHitTime : Q) : Prop :=
  (-1 < obs_z obs < 1)%Q
  /\ obs_lane obs = lane player
  /\ (yPosition player < 11 # 10)%Q
  /\ (INVINCIBILITY_DURATION < now - lastHitTime)%Q.

(** ** Summaries of the obstacle loop *)

(** The refs no obstacle of the loop writes. *)
Definition loopFixed (e : Engine) :=
  (playerStateRef e, playerGroupRef e, sceneRef e, lavaMaterialRef e,
   obstaclesRef e, speedRef e, lastTimeRef e, lastSpawnTimeRef e,
   isPlayingRef e, isPausedRef e, allocated e).

(** The refs the retirement does not write. *)
Definition retireFixed (e : Engine) :=
  (playerStateRef e, playerGroupRef e, lavaMaterialRef e, speedRef e,
   scoreRef e, lastTimeRef e, lastSpawnTimeRef e, lastHitTimeRef e,
   isPlayingRef e, isPausedRef e, gameState e, damageSounds e, allocated e).

(** The obstacle is beyond the threshold of line 690 once advanced. *)
Definition passes (v dt : Q) (obs : Obstacle3D) : bool :=
  Qltb 5 (obs_z (advance v dt obs)).

(** The obstacle adds to the score in this frame (lines 690-693). *)
Definition awards (v dt : Q) (obs : Obstacle3D) : bool :=
  passes v dt obs && negb (obs_passed obs).

(** The obstacle object as the loop leaves it. *)
Definition settle (v dt : Q) (obs : Obstacle3D) : Obstacle3D :=
  let obs1 := advance v dt obs in
  if awards v dt obs
  then mkObstacle (obs_id obs1) (obs_lane obs1) (obs_z obs1) true
  else obs1.

(** The same loop state with another [lastTimeRef]. *)
Definition loop_set_lastTime (t : Q) (lp : Loop) : Loop :=
  mkLoop (set_lastTime t (lp_engine lp)) (lp_calls lp) (lp_toRemove lp)
    (lp_done lp).

(** ** Hits *)

(** The invincibility gate of line 674. *)
Definition gateOpen (now : Q) (e : Engine) : bool :=
  Qltb INVINCIBILITY_DURATION (now - lastHitTimeRef e).

(** What a hit writes. *)
Definition hitState (e : Engine) : Q * GameState * nat :=
  (lastHitTimeRef e, gameState e, damageSounds e).

(** One hit applied at [now] to a state whose hit fields were those of
    [e0]. *)
Definition hitOnce (now : Q) (e0 e : Engine) : Prop :=
  lastHitTimeRef e = now
  /\ damageSounds e = S (damageSounds e0)
  /\ exists s, gameState e = loseLife s (gameState e0).

(** ** Invariants of a session *)

(** The bounds on lives that every update of the React state keeps. *)
Definition livesOk (gs : GameState) : Prop :=
  0 <= lives gs <= 3 /\ (gameOver gs = false -> 1 <= lives gs).

(** The part of the invariant that speaks of the game data. *)
Record Core (e : Engine) : Prop := mkCore {
  core_score : 0 <= scoreRef e;
  core_speed : (START_SPEED <= speedRef e <= MAX_SPEED)%Q;
  core_lane : 0 <= lane (playerStateRef e) <= 2;
  core_lives : livesOk (gameState e);
  core_group : is_Some (playerGroupRef e);
  core_scene : is_Some (sceneRef e);
  core_lava : lavaMaterialRef e = true;
  core_passed : Forall (λ o, obs_passed o = false) (obstaclesRef e)
}.

(** The refs that mirror the React state [gs]. *)
Definition synced (gs : GameState) (e : Engine) : Prop :=
  isPlayingRef e = isPlaying gs && negb (gameOver gs)
  /\ isPausedRef e = isPaused gs.

Definition Inv (e : Engine) : Prop := Core e /\ synced (gameState e) e.

(** What the loop keeps of the React state. *)
Definition gsKept (gs0 gs : GameState) : Prop :=
  livesOk gs /\ isPlaying gs = isPlaying gs0 /\ isPaused gs = isPaused gs0.

(** ** Sessions used as concrete inputs *)

(** The answers of the environment in a frame: the lane draw, the id
    drawn, and a clock that reads the same value throughout the frame. *)
Definition centreEnv : FrameEnv := mkFrameEnv (1 # 2) "0.5" (fun _ => 5000%Q).
Definition rightEnv : FrameEnv := mkFrameEnv (9 # 10) "0.25" (fun _ => 6000%Q).
Definition hitEnv : FrameEnv := mkFrameEnv (9 # 10) "0.125" (fun _ => 5000%Q).
Definition lateEnv : FrameEnv := mkFrameEnv (1 # 2) "0.75" (fun _ => 8010%Q).
Definition lastEnv : FrameEnv := mkFrameEnv (1 # 2) "0.875" (fun _ => 11010%Q).

(** A running session in which an obstacle is about to reach the player:
    the game is started at clock 1000, and the frame at 2600 has spawned
    the obstacle "0.5" in the centre lane and moved it to z = -36. *)
Definition approaching : Engine :=
  run (mount 0) [(Start, 1000%Q); (Frame 2600 centreEnv, 2600%Q)].

(** A running session in which the player has just started a jump. *)
Definition jumping : Engine :=
  run (mount 0) [(Start, 1000%Q); (Pose JUMP 1200, 1200%Q)].

(** [approaching], after the player has moved to the left lane. *)
Definition sidestepped : Engine :=
  run (mount 0)
    [(Start, 1000%Q); (Frame 2600 centreEnv, 2600%Q);
     (Pose LEFT 2700, 2700%Q)].

(** [sidestepped], after the frame in which the obstacle passes: the
    score is 10. *)
Definition scored : Engine :=
  run (mount 0)
    [(Start, 1000%Q); (Frame 2600 centreEnv, 2600%Q);
     (Pose LEFT 2700, 2700%Q); (Frame 6000 rightEnv, 6000%Q)].

(** [sidestepped], after two more frames: the obstacle "0.5" has gone by
    the player and is at z = 4.875, short of the retirement test; the
    frame at 5300 has spawned the obstacle "0.25". *)
Definition almostRetired : Engine :=
  run sidestepped [(Frame 5300 rightEnv, 5300%Q); (Frame 5325 rightEnv, 5325%Q)].

(** One obstacle hitting twice: it hits at clock 5000, the game is
    paused for three seconds while it is in the band, and it is still
    there on the first frame after the pause. *)
Definition hitTwice : Engine :=
  run approaching
    [(Frame 5000 hitEnv, 5000%Q); (Pause, 5000%Q);
     (Frame 8000 lateEnv, 8000%Q); (Resume, 8000%Q);
     (Frame 8010 lateEnv, 8010%Q)].

(** The obstacle of [hitTwice] hits a third time after a second pause:
    the game is over. *)
Definition threeHits : Engine :=
  run hitTwice
    [(Pause, 8010%Q); (Frame 11000 lastEnv, 11000%Q); (Resume, 11000%Q);
     (Frame 11010 lastEnv, 11010%Q)].


(** A frame read 10 ms after the hit of [hitEnv]. *)
Definition soonEnv : FrameEnv := mkFrameEnv (1 # 2) "0.625" (fun _ => 5010%Q).

(** ** Meshes and obstacles *)

(** The identity of the mesh registered under an id. *)
Definition meshHandle (e : Engine) (id : string) : option nat :=
  mesh_handle <$> (obstacleMeshesRef e !! id).

(** The scene holds no mesh twice, every mesh was allocated before the
    next one to come, and distinct ids name distinct meshes. *)
Record Rendered (e : Engine) : Prop := mkRendered {
  rd_scene : exists sc, sceneRef e = Some sc /\ NoDup sc
               /\ forall h, h ∈ sc -> (h < allocated e)%nat;
  rd_fresh : forall id h, meshHandle e id = Some h -> (h < allocated e)%nat;
  rd_inj : forall id1 id2 h,
      meshHandle e id1 = Some h -> meshHandle e id2 = Some h -> id1 = id2
}.

(** The id names a mesh that is in the scene. *)
Definition shown (e : Engine) (id : string) : Prop :=
  exists h sc, meshHandle e id = Some h /\ sceneRef e = Some sc /\ h ∈ sc.

(** The bookkeeping every reachable state keeps. *)
Record Bookkeeping (e : Engine) : Prop := mkBookkeeping {
  bk_rendered : Rendered e;
  bk_shown : Forall (λ o, shown e (obs_id o)) (obstaclesRef e);
  bk_score : (10 | scoreRef e);
  bk_reported : (10 | score (gameState e))
}.

(** The refs [Rendered] and [shown] read. *)
Definition renderRefs (e : Engine) :=
  (sceneRef e, obstacleMeshesRef e, allocated e).



Definition rightGrass : DecorDraws :=
  mkDecorDraws (1 # 4) (1 # 4) (1 # 2) (1 # 10) "0.32" (1 # 2).

(** * Properties *)

(** ** Comparisons *)

Lemma Qltb_lt (x y : Q) : Qltb x y = true <-> (x < y)%Q.
Proof.
  unfold Qltb. rewrite negb_true_iff, <- not_true_iff_false, Qle_bool_iff.
  split; [apply Qnot_le_lt | apply Qlt_not_le].
Qed.

Lemma Qltb_ge (x y : Q) : Qltb x y = false <-> (y <= x)%Q.
Proof.
  unfold Qltb. rewrite negb_false_iff. apply Qle_bool_iff.
Qed.

(** ** Difficulty *)

Lemma inject_Z_div50_nonneg (s : Z) : 0 <= s -> (0 <= inject_Z s / 50)%Q.
Proof.
  intros Hs. apply Qle_shift_div_l; [reflexivity |].
  rewrite Qmult_0_l. change 0%Q with (inject_Z 0). now rewrite <- Zle_Qle.
Qed.

Lemma inject_Z_div50_mono (s1 s2 : Z) :
  s1 <= s2 -> (inject_Z s1 / 50 <= inject_Z s2 / 50)%Q.
Proof.
  intros Hs. apply Qmult_le_compat_r; [now rewrite <- Zle_Qle | discriminate].
Qed.

Lemma difficulty_range (s : Z) :
  0 <= s -> (START_SPEED <= difficulty s <= MAX_SPEED)%Q.
Proof.
  intros Hs. pose proof (inject_Z_div50_nonneg s Hs) as Hq.
  unfold difficulty, START_SPEED, MAX_SPEED in *. split.
  - apply Q.min_glb; lra.
  - apply Q.le_min_l.
Qed.

Lemma difficulty_mono (s1 s2 : Z) :
  s1 <= s2 -> (difficulty s1 <= difficulty s2)%Q.
Proof.
  intros Hs. pose proof (inject_Z_div50_mono s1 s2 Hs) as Hq.
  unfold difficulty. apply Q.min_le_compat_l. lra.
Qed.

Lemma difficulty_clamp (s : Z) : 0 <= s -> (difficulty s == spec_speed s)%Q.
Proof.
  intros Hs. pose proof (inject_Z_div50_nonneg s Hs) as Hq.
  unfold difficulty, spec_speed, clamp, START_SPEED, MAX_SPEED in *.
  rewrite Q.max_r.
  - apply Q.min_comm.
  - apply Q.min_glb; lra.
Qed.

(** ** What the obstacle loop and the retirement leave alone *)

Lemma foldl_invariant {A B : Type} (P : A -> Prop) (f : A -> B -> A)
    (l : list B) (a : A) :
  (forall a x, P a -> P (f a x)) -> P a -> P (foldl f a l).
Proof.
  intros Hstep. revert a. induction l as [| x l IH]; intros a Ha; simpl.
  - exact Ha.
  - apply IH, Hstep, Ha.
Qed.

Lemma applyHit_fixed now e : loopFixed (applyHit now e) = loopFixed e.
Proof. unfold applyHit. destruct (Qltb _ _); reflexivity. Qed.

Lemma syncMesh_fixed obs e : loopFixed (syncMesh obs e) = loopFixed e.
Proof. unfold syncMesh. destruct (_ !! _); reflexivity. Qed.

Lemma checkCollision_fixed clock calls obs e :
  loopFixed (fst (checkCollision clock calls obs e)) = loopFixed e.
Proof.
  unfold checkCollision. destruct (confirmedCollision _ _); simpl;
    [apply applyHit_fixed | reflexivity].
Qed.

Lemma processObstacle_fixed dt clock lp obs :
  loopFixed (lp_engine (processObstacle dt clock lp obs))
  = loopFixed (lp_engine lp).
Proof.
  unfold processObstacle.
  pose proof (checkCollision_fixed clock (lp_calls lp)
                (advance (speedRef (lp_engine lp)) dt obs)
                (syncMesh (advance (speedRef (lp_engine lp)) dt obs)
                   (lp_engine lp))) as Hc.
  rewrite syncMesh_fixed in Hc.
  destruct (checkCollision _ _ _ _) as [e2 calls]. simpl in Hc.
  destruct (Qltb 5 _); [destruct (negb _) |]; simpl; exact Hc.
Qed.

Lemma foldl_processObstacle_fixed dt clock l lp :
  loopFixed (lp_engine (foldl (processObstacle dt clock) lp l))
  = loopFixed (lp_engine lp).
Proof.
  apply (foldl_invariant
           (fun x => loopFixed (lp_engine x) = loopFixed (lp_engine lp))).
  - intros a x Ha. now rewrite processObstacle_fixed.
  - reflexivity.
Qed.

Lemma obstacleLoop_fixed dt clock e :
  loopFixed (lp_engine (obstacleLoop dt clock e)) = loopFixed e.
Proof. unfold obstacleLoop. now rewrite foldl_processObstacle_fixed. Qed.

Lemma removeObstacleMesh_fixed e id :
  retireFixed (removeObstacleMesh e id) = retireFixed e
  /\ obstaclesRef (removeObstacleMesh e id) = obstaclesRef e.
Proof.
  unfold removeObstacleMesh.
  destruct (obstacleMeshesRef e !! id), (sceneRef e); split; reflexivity.
Qed.

Lemma foldl_removeObstacleMesh_fixed ids e :
  retireFixed (foldl removeObstacleMesh e ids) = retireFixed e
  /\ obstaclesRef (foldl removeObstacleMesh e ids) = obstaclesRef e.
Proof.
  apply (foldl_invariant
           (fun x => retireFixed x = retireFixed e
                     /\ obstaclesRef x = obstaclesRef e)).
  - intros a x [Ha1 Ha2].
    destruct (removeObstacleMesh_fixed a x) as [H1 H2]. split; congruence.
  - split; reflexivity.
Qed.

Lemma retire_fixed lp : retireFixed (retire lp) = retireFixed (lp_engine lp).
Proof.
  unfold retire.
  destruct (foldl_removeObstacleMesh_fixed (lp_toRemove lp)
              (set_obstacles (lp_done lp) (lp_engine lp))) as [H _].
  unfold retireFixed in *. simpl in *. exact H.
Qed.

Lemma retire_obstacles lp :
  obstaclesRef (retire lp)
  = filter (λ o, obs_id o ∉ lp_toRemove lp) (lp_done lp).
Proof.
  unfold retire.
  destruct (foldl_removeObstacleMesh_fixed (lp_toRemove lp)
              (set_obstacles (lp_done lp) (lp_engine lp))) as [_ H].
  simpl. now rewrite H.
Qed.

(** The refs the steps before the loop leave alone. *)
Lemma beforeObstacles_speed dt time env e :
  speedRef (beforeObstacles dt time env e) = difficulty (scoreRef e).
Proof.
  unfold beforeObstacles, updatePlayer, spawnObstacle. simpl.
  repeat case_match; reflexivity.
Qed.

Lemma beforeObstacles_kept dt time env e :
  let e' := beforeObstacles dt time env e in
  scoreRef e' = scoreRef e /\ lastHitTimeRef e' = lastHitTimeRef e
  /\ gameState e' = gameState e /\ damageSounds e' = damageSounds e
  /\ lastTimeRef e' = lastTimeRef e /\ isPlayingRef e' = isPlayingRef e
  /\ isPausedRef e' = isPausedRef e /\ lavaMaterialRef e' = lavaMaterialRef e.
Proof.
  unfold beforeObstacles, updatePlayer, spawnObstacle. simpl.
  repeat case_match; simpl; repeat split; reflexivity.
Qed.

Lemma updateGameLogic_speed dt time env e :
  speedRef (updateGameLogic dt time env e) = difficulty (scoreRef e).
Proof.
  unfold updateGameLogic.
  pose proof (retire_fixed
                (obstacleLoop dt (nowAt env) (beforeObstacles dt time env e)))
    as Hr.
  pose proof (obstacleLoop_fixed dt (nowAt env)
                (beforeObstacles dt time env e)) as Hl.
  pose proof (beforeObstacles_speed dt time env e) as Hb.
  unfold retireFixed, loopFixed in *. congruence.
Qed.

(** ** What the obstacle loop computes *)

Lemma applyHit_score now e : scoreRef (applyHit now e) = scoreRef e.
Proof. unfold applyHit. destruct (Qltb _ _); reflexivity. Qed.

Lemma checkCollision_score clock calls obs e :
  scoreRef (fst (checkCollision clock calls obs e)) = scoreRef e.
Proof.
  unfold checkCollision. destruct (confirmedCollision _ _); simpl;
    [apply applyHit_score | reflexivity].
Qed.

Lemma syncMesh_score obs e : scoreRef (syncMesh obs e) = scoreRef e.
Proof. unfold syncMesh. destruct (_ !! _); reflexivity. Qed.

Lemma processObstacle_content dt clock lp obs :
  let v := speedRef (lp_engine lp) in
  let lp' := processObstacle dt clock lp obs in
  lp_done lp' = lp_done lp ++ [settle v dt obs]
  /\ lp_toRemove lp'
     = lp_toRemove lp ++ (if passes v dt obs then [obs_id obs] else [])
  /\ scoreRef (lp_engine lp')
     = scoreRef (lp_engine lp) + (if awards v dt obs then 10 else 0).
Proof.
  simpl. unfold processObstacle, settle, awards, passes.
  pose proof (checkCollision_score clock (lp_calls lp)
                (advance (speedRef (lp_engine lp)) dt obs)
                (syncMesh (advance (speedRef (lp_engine lp)) dt obs)
                   (lp_engine lp))) as Hc.
  rewrite syncMesh_score in Hc.
  destruct (checkCollision _ _ _ _) as [e2 calls]. simpl in Hc.
  destruct (Qltb 5 _); simpl.
  - destruct (obs_passed obs); simpl; rewrite ?Hc, ?Z.add_0_r;
      repeat split; reflexivity.
  - rewrite Hc, Z.add_0_r, app_nil_r. repeat split; reflexivity.
Qed.

Lemma foldl_processObstacle_content dt clock l : forall lp,
  let v := speedRef (lp_engine lp) in
  let lp' := foldl (processObstacle dt clock) lp l in
  lp_done lp' = lp_done lp ++ map (settle v dt) l
  /\ lp_toRemove lp'
     = lp_toRemove lp ++ map obs_id (List.filter (passes v dt) l)
  /\ scoreRef (lp_engine lp')
     = scoreRef (lp_engine lp)
       + 10 * Z.of_nat (length (List.filter (awards v dt) l)).
Proof.
  induction l as [| obs l IH]; intros lp; simpl.
  - rewrite !app_nil_r, Z.add_0_r. repeat split; reflexivity.
  - destruct (processObstacle_content dt clock lp obs) as (Hd & Hr & Hs).
    destruct (IH (processObstacle dt clock lp obs)) as (Hd' & Hr' & Hs').
    simpl in *.
    assert (Hv : speedRef (lp_engine (processObstacle dt clock lp obs))
                 = speedRef (lp_engine lp)).
    { pose proof (processObstacle_fixed dt clock lp obs) as Hf.
      unfold loopFixed in Hf. congruence. }
    rewrite Hv in *. rewrite Hd', Hr', Hs', Hd, Hr, Hs.
    rewrite <- !app_assoc. simpl.
    destruct (passes _ _ obs); destruct (awards _ _ obs); simpl;
      repeat split; try reflexivity; lia.
Qed.

Lemma obstacleLoop_content dt clock e :
  let lp := obstacleLoop dt clock e in
  lp_done lp = map (settle (speedRef e) dt) (obstaclesRef e)
  /\ lp_toRemove lp
     = map obs_id (List.filter (passes (speedRef e) dt) (obstaclesRef e))
  /\ scoreRef (lp_engine lp)
     = scoreRef e
       + 10 * Z.of_nat
                (length (List.filter (awards (speedRef e) dt) (obstaclesRef e))).
Proof.
  exact (foldl_processObstacle_content dt clock (obstaclesRef e)
           (mkLoop e O [] [])).
Qed.

(** The score after a frame: ten for every obstacle that awards. *)
Lemma updateGameLogic_score dt time env e :
  let e0 := beforeObstacles dt time env e in
  scoreRef (updateGameLogic dt time env e)
  = scoreRef e
    + 10 * Z.of_nat
             (length (List.filter (awards (speedRef e0) dt) (obstaclesRef e0))).
Proof.
  cbv zeta. unfold updateGameLogic.
  pose proof (retire_fixed
                (obstacleLoop dt (nowAt env) (beforeObstacles dt time env e)))
    as Hr.
  destruct (obstacleLoop_content dt (nowAt env)
              (beforeObstacles dt time env e)) as (_ & _ & Hs).
  destruct (beforeObstacles_kept dt time env e) as (Hb & _).
  assert (scoreRef (retire (obstacleLoop dt (nowAt env)
                              (beforeObstacles dt time env e)))
          = scoreRef (lp_engine (obstacleLoop dt (nowAt env)
                                   (beforeObstacles dt time env e)))) as ->
    by (unfold retireFixed in Hr; congruence).
  rewrite Hs, Hb. reflexivity.
Qed.

(** The obstacles after a frame: the advanced obstacles whose id is not
    the id of an obstacle that passed. *)
Lemma updateGameLogic_obstacles dt time env e :
  let e0 := beforeObstacles dt time env e in
  obstaclesRef (updateGameLogic dt time env e)
  = filter (λ o, obs_id o ∉ map obs_id
                   (List.filter (passes (speedRef e0) dt) (obstaclesRef e0)))
      (map (settle (speedRef e0) dt) (obstaclesRef e0)).
Proof.
  cbv zeta. unfold updateGameLogic. rewrite retire_obstacles.
  destruct (obstacleLoop_content dt (nowAt env)
              (beforeObstacles dt time env e)) as (Hd & Hr & _).
  now rewrite Hd, Hr.
Qed.

(** ** Invariants of a session *)

Lemma loseLife_livesOk s gs : livesOk gs -> livesOk (loseLife s gs).
Proof.
  unfold livesOk, loseLife. intros [Hr Ha].
  destruct (lives gs - 1 <=? 0) eqn:Hc; simpl.
  - split; [lia | discriminate].
  - apply Z.leb_gt in Hc. split; [lia | intros _; lia].
Qed.

Lemma loseLife_flags s gs :
  isPlaying (loseLife s gs) = isPlaying gs
  /\ isPaused (loseLife s gs) = isPaused gs.
Proof. unfold loseLife. destruct (_ <=? _); split; reflexivity. Qed.

Lemma applyHit_gsKept gs0 now e :
  gsKept gs0 (gameState e) -> gsKept gs0 (gameState (applyHit now e)).
Proof.
  unfold applyHit, gsKept. intros (Hl & Hp & Hq).
  destruct (Qltb _ _); simpl; [| auto].
  destruct (loseLife_flags (scoreRef e) (gameState e)) as [-> ->].
  auto using loseLife_livesOk.
Qed.

Lemma processObstacle_gsKept gs0 dt clock lp obs :
  gsKept gs0 (gameState (lp_engine lp)) ->
  gsKept gs0 (gameState (lp_engine (processObstacle dt clock lp obs))).
Proof.
  intros H. unfold processObstacle, checkCollision.
  set (o1 := advance _ _ _).
  assert (Hs : gsKept gs0 (gameState (syncMesh o1 (lp_engine lp)))).
  { unfold syncMesh. destruct (_ !! _); exact H. }
  destruct (confirmedCollision _ _);
    destruct (Qltb 5 _); try destruct (negb _); simpl;
    auto using applyHit_gsKept.
Qed.

Lemma updateGameLogic_gsKept dt time env e :
  livesOk (gameState e) ->
  gsKept (gameState e) (gameState (updateGameLogic dt time env e)).
Proof.
  intros H. unfold updateGameLogic.
  pose proof (retire_fixed
                (obstacleLoop dt (nowAt env) (beforeObstacles dt time env e)))
    as Hr.
  assert (gameState (retire (obstacleLoop dt (nowAt env)
                               (beforeObstacles dt time env e)))
          = gameState (lp_engine (obstacleLoop dt (nowAt env)
                                    (beforeObstacles dt time env e)))) as ->
    by (unfold retireFixed in Hr; congruence).
  unfold obstacleLoop. apply foldl_invariant.
  - intros a x. apply processObstacle_gsKept.
  - simpl. destruct (beforeObstacles_kept dt time env e) as (_ & _ & -> & _).
    unfold gsKept. auto.
Qed.

Lemma jumpPhysics_lane time p : lane (jumpPhysics time p) = lane p.
Proof. unfold jumpPhysics. repeat case_match; reflexivity. Qed.

Lemma beforeObstacles_player dt time env e :
  playerStateRef (beforeObstacles dt time env e)
  = match playerGroupRef e with
    | Some _ => jumpPhysics time (playerStateRef e)
    | None => playerStateRef e
    end.
Proof.
  unfold beforeObstacles, updatePlayer, spawnObstacle. simpl.
  repeat case_match; reflexivity.
Qed.

Lemma beforeObstacles_obstacles dt time env e :
  obstaclesRef (beforeObstacles dt time env e) = obstaclesRef e
  \/ obstaclesRef (beforeObstacles dt time env e)
     = obstaclesRef e
       ++ [mkObstacle (rndId env) (Qfloor (rndLane env * 3))
             SPAWN_DISTANCE false].
Proof.
  unfold beforeObstacles, updatePlayer, spawnObstacle. simpl.
  repeat case_match; simpl; auto.
Qed.

Lemma beforeObstacles_present dt time env e :
  is_Some (playerGroupRef e) -> is_Some (sceneRef e) ->
  is_Some (playerGroupRef (beforeObstacles dt time env e))
  /\ is_Some (sceneRef (beforeObstacles dt time env e)).
Proof.
  intros [g Hg] [s Hs].
  unfold beforeObstacles, updatePlayer, spawnObstacle. simpl.
  rewrite Hg. simpl. rewrite Hs.
  repeat case_match; simpl; split; eauto.
Qed.

Lemma retire_scene lp :
  is_Some (sceneRef (lp_engine lp)) -> is_Some (sceneRef (retire lp)).
Proof.
  intros H. unfold retire. simpl.
  apply (foldl_invariant (fun x => is_Some (sceneRef x))).
  - intros a id Ha. unfold removeObstacleMesh.
    destruct (obstacleMeshesRef a !! id); [| exact Ha].
    destruct Ha as [s Hs]. rewrite Hs. simpl. eauto.
  - exact H.
Qed.

Lemma settle_id v dt o : obs_id (settle v dt o) = obs_id o.
Proof. unfold settle. destruct (awards _ _ _); reflexivity. Qed.

(** An obstacle that survives the frame did not pass. *)
Lemma survivor_origin v dt (l : list Obstacle3D) (o' : Obstacle3D) :
  o' ∈ filter (λ o, obs_id o ∉ map obs_id (List.filter (passes v dt) l))
         (map (settle v dt) l) ->
  exists o, o ∈ l /\ passes v dt o = false /\ o' = advance v dt o.
Proof.
  intros H. apply list_elem_of_filter in H as [Hid Hin].
  apply list_elem_of_In, in_map_iff in Hin as (o & <- & Hin). exists o.
  rewrite settle_id in Hid.
  destruct (passes v dt o) eqn:Hp.
  - exfalso. apply Hid. rewrite list_elem_of_In. apply in_map.
    apply filter_In. split; assumption.
  - split; [now apply list_elem_of_In |]. split; [reflexivity |].
    unfold settle, awards. now rewrite Hp.
Qed.

Lemma updateGameLogic_Core dt time env e :
  Core e -> Core (updateGameLogic dt time env e).
Proof.
  intros [Hsc Hsp Hln Hlv Hg Hs Hlava Hpass].
  pose proof (retire_fixed
                (obstacleLoop dt (nowAt env) (beforeObstacles dt time env e)))
    as Hr.
  pose proof (obstacleLoop_fixed dt (nowAt env)
                (beforeObstacles dt time env e)) as Hl.
  destruct (beforeObstacles_kept dt time env e)
    as (Hb1 & Hb2 & Hb3 & Hb4 & Hb5 & Hb6 & Hb7 & Hb8).
  destruct (beforeObstacles_present dt time env e Hg Hs) as [Hg' Hs'].
  pose proof (beforeObstacles_player dt time env e) as Hp.
  fold (updateGameLogic dt time env e) in Hr.
  unfold retireFixed, loopFixed in Hr, Hl.
  split.
  - rewrite updateGameLogic_score. lia.
  - rewrite updateGameLogic_speed. now apply difficulty_range.
  - assert (playerStateRef (updateGameLogic dt time env e)
            = playerStateRef (beforeObstacles dt time env e)) as ->
      by congruence.
    rewrite Hp. destruct (playerGroupRef e);
      rewrite ?jumpPhysics_lane; exact Hln.
  - apply (updateGameLogic_gsKept dt time env e Hlv).
  - assert (playerGroupRef (updateGameLogic dt time env e)
            = playerGroupRef (beforeObstacles dt time env e)) as ->
      by congruence.
    exact Hg'.
  - unfold updateGameLogic. apply retire_scene.
    assert (sceneRef (lp_engine (obstacleLoop dt (nowAt env)
                                   (beforeObstacles dt time env e)))
            = sceneRef (beforeObstacles dt time env e)) as ->
      by congruence.
    exact Hs'.
  - assert (lavaMaterialRef (updateGameLogic dt time env e)
            = lavaMaterialRef (beforeObstacles dt time env e)) as ->
      by congruence.
    congruence.
  - rewrite updateGameLogic_obstacles. apply Forall_forall.
    intros o' Ho'. apply survivor_origin in Ho' as (o & Hin & _ & ->).
    simpl.
    assert (Hall : Forall (λ o, obs_passed o = false)
                     (obstaclesRef (beforeObstacles dt time env e))).
    { destruct (beforeObstacles_obstacles dt time env e) as [-> | ->];
        [exact Hpass |].
      apply Forall_app. split; [exact Hpass |].
      apply Forall_cons. split; [reflexivity | apply Forall_nil_2]. }
    rewrite Forall_forall in Hall. now apply Hall.
Qed.

Lemma speed_bounds_start : (START_SPEED <= START_SPEED <= MAX_SPEED)%Q.
Proof. unfold START_SPEED, MAX_SPEED. lra. Qed.

Lemma initEffect_Core now e : livesOk (gameState e) -> Core (initEffect now e).
Proof.
  intros H. split; cbn [initEffect scoreRef speedRef playerStateRef lane
    gameState playerGroupRef sceneRef lavaMaterialRef obstaclesRef].
  - lia.
  - exact speed_bounds_start.
  - lia.
  - exact H.
  - eauto.
  - eauto.
  - reflexivity.
  - constructor.
Qed.

Lemma mount_Inv now : Inv (mount now).
Proof.
  split.
  - apply initEffect_Core. unfold livesOk. simpl.
    split; [lia | intros _; lia].
  - split; reflexivity.
Qed.

Lemma animationEffect_Core now e : Core e -> Core (animationEffect now e).
Proof.
  intros H. unfold animationEffect.
  repeat case_match; try exact H.
  destruct H. split; simpl; assumption.
Qed.

Lemma set_isPausedRef_Core b e : Core e -> Core (set_isPausedRef b e).
Proof. intros [? ? ? ? ? ? ? ?]. split; assumption. Qed.

Lemma commitEffects_Core old now e : Core e -> Core (commitEffects old now e).
Proof.
  intros H. unfold commitEffects.
  assert (Hl : livesOk (gameState (animationCleanup old e))).
  { unfold animationCleanup. destruct H. repeat case_match; assumption. }
  repeat case_match; try apply set_isPausedRef_Core;
    try apply animationEffect_Core; try apply initEffect_Core; assumption.
Qed.

Lemma commitEffects_gameState old now e :
  gameState (commitEffects old now e) = gameState e.
Proof.
  unfold commitEffects, animationEffect, initEffect, animationCleanup.
  repeat case_match; reflexivity.
Qed.

Lemma commitEffects_synced old now e :
  is_Some (sceneRef e) ->
  synced old e -> synced (gameState e) (commitEffects old now e).
Proof.
  unfold synced, commitEffects, animationEffect, initEffect, animationCleanup.
  intros [sc Hsc] [Hp Hq].
  destruct old as [op oq ? oo ? ? ? ?], e as [? ? ? ? ? ? ? ? ? ? ? pr qr gs ? ?].
  destruct gs as [np nq ? no ? ? ? ?]. simpl in *. subst.
  destruct op, oq, oo, np, nq, no; simpl; split; reflexivity.
Qed.

Lemma commitEffects_Inv old now e :
  Core e -> synced old e -> Inv (commitEffects old now e).
Proof.
  intros Hc Hs. split.
  - now apply commitEffects_Core.
  - rewrite commitEffects_gameState. apply commitEffects_synced; [| exact Hs].
    now destruct Hc.
Qed.

Lemma applyGesture_lane g now p :
  0 <= lane p <= 2 -> 0 <= lane (applyGesture g now p) <= 2.
Proof.
  intros H. destruct g; simpl; repeat case_match; simpl; try lia.
Qed.

Lemma animate_Core time env e : Core e -> Core (animate time env e).
Proof.
  intros H. unfold animate. repeat case_match; try assumption.
  - destruct H. split; assumption.
  - apply updateGameLogic_Core. destruct H. split; assumption.
Qed.

Lemma updateGameLogic_refs dt time env e :
  isPlayingRef (updateGameLogic dt time env e) = isPlayingRef e
  /\ isPausedRef (updateGameLogic dt time env e) = isPausedRef e.
Proof.
  pose proof (retire_fixed
                (obstacleLoop dt (nowAt env) (beforeObstacles dt time env e)))
    as Hr.
  pose proof (obstacleLoop_fixed dt (nowAt env)
                (beforeObstacles dt time env e)) as Hl.
  destruct (beforeObstacles_kept dt time env e)
    as (_ & _ & _ & _ & _ & Hb6 & Hb7 & _).
  unfold updateGameLogic, retireFixed, loopFixed in *.
  split; congruence.
Qed.

Lemma animate_refs time env e :
  isPlayingRef (animate time env e) = isPlayingRef e
  /\ isPausedRef (animate time env e) = isPausedRef e.
Proof.
  unfold animate.
  destruct (negb (isPlayingRef e)); [split; reflexivity |].
  destruct (isPausedRef e) eqn:Hq; [split; [reflexivity | exact Hq] |].
  destruct (updateGameLogic_refs ((time - lastTimeRef e) / 1000)%Q time env
              (set_lastTime time e)) as [H1 H2].
  split; [exact H1 | rewrite H2; exact Hq].
Qed.

Lemma handle_Core ev e : Core e -> Core (handle ev e).
Proof.
  intros H. destruct ev; simpl; try (now apply animate_Core).
  1-5: destruct H as [? ? ? [Hr Ha] ? ? ? ?]; split; simpl; try assumption;
    unfold livesOk; simpl; try (split; [lia | intros _; lia]);
    split; assumption.
  unfold inputEffect. destruct H. repeat case_match; split; simpl;
    auto using applyGesture_lane.
Qed.

Lemma handle_synced ev e :
  synced (gameState e) e -> synced (gameState e) (handle ev e).
Proof.
  intros H. destruct ev; simpl; try exact H.
  - unfold inputEffect. repeat case_match; exact H.
  - destruct (animate_refs time env e) as [Hp Hq].
    unfold synced in *. now rewrite Hp, Hq.
Qed.

Lemma step_Inv e ev : Inv e -> Inv (step e ev).
Proof.
  intros [Hc Hs]. unfold step.
  apply commitEffects_Inv; [now apply handle_Core | now apply handle_synced].
Qed.

Lemma reachable_Inv e : reachable e -> Inv e.
Proof.
  induction 1 as [now | e ev _ IH]; [apply mount_Inv | now apply step_Inv].
Qed.

Lemma reachable_run e evs : reachable e -> reachable (run e evs).
Proof.
  unfold run. revert e. induction evs as [| ev evs IH]; intros e He; simpl.
  - exact He.
  - apply IH. now constructor.
Qed.

(** ** Hits *)

Lemma applyHit_hitState now e :
  hitState (applyHit now e)
  = if gateOpen now e
    then (now, loseLife (scoreRef e) (gameState e), S (damageSounds e))
    else hitState e.
Proof. unfold applyHit, gateOpen. destruct (Qltb _ _); reflexivity. Qed.

Lemma gate_closed_after_hit now e :
  lastHitTimeRef e = now -> gateOpen now e = false.
Proof.
  intros H. unfold gateOpen, INVINCIBILITY_DURATION. rewrite H.
  apply Qltb_ge. lra.
Qed.

Lemma syncMesh_player obs e :
  playerStateRef (syncMesh obs e) = playerStateRef e.
Proof. unfold syncMesh. destruct (_ !! _); reflexivity. Qed.

Lemma syncMesh_applyHit now obs e :
  hitState (applyHit now (syncMesh obs e)) = hitState (applyHit now e).
Proof.
  unfold syncMesh. destruct (_ !! _); [| reflexivity].
  unfold applyHit. simpl. destruct (Qltb _ _); reflexivity.
Qed.

Lemma syncMesh_hitState obs e : hitState (syncMesh obs e) = hitState e.
Proof. unfold syncMesh. destruct (_ !! _); reflexivity. Qed.

Lemma processObstacle_hitState dt clock lp obs :
  let e := lp_engine lp in
  hitState (lp_engine (processObstacle dt clock lp obs))
  = if confirmedCollision (advance (speedRef e) dt obs) (playerStateRef e)
    then hitState (applyHit (clock (lp_calls lp)) e)
    else hitState e.
Proof.
  cbv zeta. unfold processObstacle, checkCollision.
  rewrite syncMesh_player.
  destruct (confirmedCollision _ _);
    destruct (Qltb 5 _); try destruct (negb _); simpl;
    unfold hitState; simpl;
    first [ apply syncMesh_applyHit | apply syncMesh_hitState ].
Qed.

(** The hits of a run of the loop in which every reading of the clock is
    [now]: one hit if the gate is open and some obstacle collides, none
    otherwise. *)
Lemma foldl_processObstacle_hits dt clock now l :
  (forall k : nat, clock k = now) -> forall lp,
  let e := lp_engine lp in
  let lp' := foldl (processObstacle dt clock) lp l in
  if gateOpen now e
     && existsb (fun o => confirmedCollision (advance (speedRef e) dt o)
                            (playerStateRef e)) l
  then hitOnce now e (lp_engine lp')
  else hitState (lp_engine lp') = hitState e.
Proof.
  intros Hclock. induction l as [| obs l IH]; intros lp; cbv zeta.
  - rewrite andb_false_r. reflexivity.
  - simpl foldl. simpl existsb.
    pose proof (processObstacle_fixed dt clock lp obs) as Hf.
    pose proof (processObstacle_hitState dt clock lp obs) as Hh.
    specialize (IH (processObstacle dt clock lp obs)).
    cbv zeta in IH, Hh.
    set (lp1 := processObstacle dt clock lp obs) in *.
    assert (Hv : speedRef (lp_engine lp1) = speedRef (lp_engine lp))
      by (unfold loopFixed in Hf; congruence).
    assert (Hp : playerStateRef (lp_engine lp1) = playerStateRef (lp_engine lp))
      by (unfold loopFixed in Hf; congruence).
    rewrite Hv, Hp in IH.
    rewrite Hclock, applyHit_hitState in Hh.
    destruct (confirmedCollision (advance _ dt obs) _) eqn:Hc.
    + destruct (gateOpen now (lp_engine lp)) eqn:Hg; simpl.
      * assert (Hclosed : gateOpen now (lp_engine lp1) = false)
          by (apply gate_closed_after_hit; unfold hitState in Hh; congruence).
        rewrite Hclosed in IH. simpl in IH.
        unfold hitState, hitOnce in *. repeat split; [congruence .. |].
        exists (scoreRef (lp_engine lp)). congruence.
      * assert (Hg' : gateOpen now (lp_engine lp1) = false).
        { unfold gateOpen in *. unfold hitState in Hh.
          replace (lastHitTimeRef (lp_engine lp1))
            with (lastHitTimeRef (lp_engine lp)) by congruence.
          exact Hg. }
        rewrite Hg' in IH. simpl in IH. congruence.
    + assert (Hg' : gateOpen now (lp_engine lp1) = gateOpen now (lp_engine lp)).
      { unfold gateOpen. unfold hitState in Hh.
        replace (lastHitTimeRef (lp_engine lp1))
          with (lastHitTimeRef (lp_engine lp)) by congruence.
        reflexivity. }
      rewrite Hg' in IH. rewrite orb_false_l.
      destruct (gateOpen now (lp_engine lp) && existsb _ l).
      * unfold hitOnce, hitState in *.
        destruct IH as (H1 & H2 & s & H3). repeat split; [congruence .. |].
        exists s. congruence.
      * congruence.
Qed.

Lemma loseLife_lives s gs :
  1 <= lives gs -> lives (loseLife s gs) = lives gs - 1.
Proof.
  intros H. unfold loseLife. destruct (lives gs - 1 <=? 0) eqn:Hc; simpl.
  - apply Z.leb_le in Hc. lia.
  - reflexivity.
Qed.

Lemma loseLife_lives_ge s gs : lives gs - 1 <= lives (loseLife s gs).
Proof.
  unfold loseLife. destruct (lives gs - 1 <=? 0) eqn:Hc; simpl.
  - apply Z.leb_le in Hc. lia.
  - lia.
Qed.

(** No obstacle of the list collides: the loop applies no hit, whatever
    the clock reads. *)
Lemma foldl_processObstacle_no_collision dt clock l : forall lp,
  let e := lp_engine lp in
  (forall o, In o l ->
     confirmedCollision (advance (speedRef e) dt o) (playerStateRef e) = false) ->
  hitState (lp_engine (foldl (processObstacle dt clock) lp l)) = hitState e.
Proof.
  induction l as [| obs l IH]; intros lp; cbv zeta; intros Hno.
  - reflexivity.
  - simpl foldl.
    pose proof (processObstacle_fixed dt clock lp obs) as Hf.
    pose proof (processObstacle_hitState dt clock lp obs) as Hh.
    cbv zeta in Hh. rewrite (Hno obs (or_introl eq_refl)) in Hh.
    rewrite <- Hh. apply IH. intros o Ho.
    unfold loopFixed in Hf.
    replace (speedRef (lp_engine (processObstacle dt clock lp obs)))
      with (speedRef (lp_engine lp)) by congruence.
    replace (playerStateRef (lp_engine (processObstacle dt clock lp obs)))
      with (playerStateRef (lp_engine lp)) by congruence.
    apply Hno. now right.
Qed.

(** The hit fields after a frame are those the loop leaves. *)
Lemma updateGameLogic_hitState dt time env e :
  hitState (updateGameLogic dt time env e)
  = hitState (lp_engine (obstacleLoop dt (nowAt env)
                           (beforeObstacles dt time env e))).
Proof.
  unfold updateGameLogic.
  pose proof (retire_fixed
                (obstacleLoop dt (nowAt env) (beforeObstacles dt time env e)))
    as Hr.
  unfold retireFixed, hitState in *. congruence.
Qed.

Lemma beforeObstacles_hitState dt time env e :
  hitState (beforeObstacles dt time env e) = hitState e.
Proof.
  destruct (beforeObstacles_kept dt time env e) as (_ & H1 & H2 & H3 & _).
  unfold hitState. congruence.
Qed.

Lemma confirmedCollision_true obs player :
  confirmedCollision obs player = true
  <-> (-1 < obs_z obs < 1)%Q /\ obs_lane obs = lane player
      /\ (yPosition player < 11 # 10)%Q.
Proof.
  unfold confirmedCollision.
  destruct (Qltb (-1) (obs_z obs)) eqn:H1; simpl.
  - destruct (Qltb (obs_z obs) 1) eqn:H2; simpl.
    + destruct (obs_lane obs =? lane player) eqn:H3.
      * rewrite Qltb_lt in *. apply Z.eqb_eq in H3. tauto.
      * apply Z.eqb_neq in H3. split; [discriminate | tauto].
    + apply Qltb_ge in H2. split; [discriminate |].
      intros [[_ H] _]. exfalso. lra.
  - apply Qltb_ge in H1. split; [discriminate |].
    intros [[H _] _]. exfalso. lra.
Qed.

Lemma hitCondition_dec obs e now :
  confirmedCollision obs (playerStateRef e) && gateOpen now e = true
  <-> hitCondition obs (playerStateRef e) now (lastHitTimeRef e).
Proof.
  rewrite andb_true_iff, confirmedCollision_true. unfold gateOpen.
  rewrite Qltb_lt. unfold hitCondition. tauto.
Qed.

(** The collision block for one obstacle, for any clock. *)
Lemma checkCollision_spec clock calls obs e :
  1 <= lives (gameState e) ->
  let now := clock calls in
  let e' := fst (checkCollision clock calls obs e) in
  (lives (gameState e') < lives (gameState e)
   <-> hitCondition obs (playerStateRef e) now (lastHitTimeRef e))
  /\ (lives (gameState e') < lives (gameState e) ->
      lives (gameState e') = lives (gameState e) - 1
      /\ lastHitTimeRef e' = now
      /\ damageSounds e' = S (damageSounds e))
  /\ (~ lives (gameState e') < lives (gameState e) -> hitState e' = hitState e).
Proof.
  intros Hl. cbv zeta. rewrite <- hitCondition_dec.
  unfold checkCollision.
  destruct (confirmedCollision obs (playerStateRef e)); simpl.
  - pose proof (applyHit_hitState (clock calls) e) as Hh.
    destruct (gateOpen (clock calls) e); unfold hitState in Hh.
    + injection Hh as H1 H2 H3. rewrite H2, H1, H3.
      rewrite (loseLife_lives _ _ Hl).
      repeat split; try reflexivity; try lia.
    + injection Hh as H1 H2 H3. rewrite H2.
      repeat split; try discriminate; try lia.
      unfold hitState. congruence.
  - repeat split; try discriminate; lia.
Qed.

(** The hits of a frame in which every reading of the clock is [now]. *)
Lemma updateGameLogic_hits dt time env now e :
  (forall k, nowAt env k = now) ->
  let e0 := beforeObstacles dt time env e in
  let e' := updateGameLogic dt time env e in
  if gateOpen now e
     && existsb (fun o => confirmedCollision (advance (speedRef e0) dt o)
                            (playerStateRef e0)) (obstaclesRef e0)
  then hitOnce now e e'
  else hitState e' = hitState e.
Proof.
  intros Hclock. cbv zeta.
  pose proof (foldl_processObstacle_hits dt (nowAt env) now
                (obstaclesRef (beforeObstacles dt time env e)) Hclock
                (mkLoop (beforeObstacles dt time env e) O [] [])) as Hh.
  cbv zeta in Hh. simpl lp_engine in Hh.
  fold (obstacleLoop dt (nowAt env) (beforeObstacles dt time env e)) in Hh.
  pose proof (updateGameLogic_hitState dt time env e) as Hu.
  pose proof (beforeObstacles_hitState dt time env e) as Hb.
  assert (Hg : gateOpen now (beforeObstacles dt time env e) = gateOpen now e).
  { unfold gateOpen, hitState in *. congruence. }
  rewrite Hg in Hh.
  destruct (gateOpen now e && existsb _ _).
  - unfold hitOnce, hitState in *. destruct Hh as (H1 & H2 & s & H3).
    repeat split; [congruence .. |]. exists s. congruence.
  - congruence.
Qed.

(** C1. In a frame, the player loses a life exactly when some obstacle,
    once advanced, has z in the open interval (-1, 1), is in the player's
    logical lane, the player's yPosition is below 1.1, and the player is
    not invincible (now - lastHitTime > INVINCIBILITY_DURATION).  Such a
    hit takes exactly one life, sets lastHitTime to now and calls the
    damage-feedback hook once; with yPosition >= 1.1 no life is lost.  The
    same holds for the collision block of a single obstacle, for any
    clock. *)
Theorem C1_life_lost_exactly_on_confirmed_hit
    (e : Engine) (dt time now : Q) (env : FrameEnv) :
  1 <= lives (gameState e) ->
  (forall k, nowAt env k = now) ->
  let e0 := beforeObstacles dt time env e in
  let e' := updateGameLogic dt time env e in
  (lives (gameState e') < lives (gameState e)
   <-> exists o, In o (obstaclesRef e0)
         /\ hitCondition (advance (speedRef e0) dt o) (playerStateRef e0)
              now (lastHitTimeRef e))
  /\ (lives (gameState e') < lives (gameState e) ->
      lives (gameState e') = lives (gameState e) - 1
      /\ lastHitTimeRef e' = now
      /\ damageSounds e' = S (damageSounds e))
  /\ (~ lives (gameState e') < lives (gameState e) ->
      lives (gameState e') = lives (gameState e)
      /\ lastHitTimeRef e' = lastHitTimeRef e
      /\ damageSounds e' = damageSounds e)
  /\ (forall env2,
      (11 # 10 <= yPosition (playerStateRef (beforeObstacles dt time env2 e)))%Q ->
      lives (gameState (updateGameLogic dt time env2 e)) = lives (gameState e))
  /\ (forall clock calls obs e1,
      1 <= lives (gameState e1) ->
      let e2 := fst (checkCollision clock calls obs e1) in
      (lives (gameState e2) < lives (gameState e1)
       <-> hitCondition obs (playerStateRef e1) (clock calls)
             (lastHitTimeRef e1))
      /\ (lives (gameState e2) < lives (gameState e1) ->
          lives (gameState e2) = lives (gameState e1) - 1
          /\ lastHitTimeRef e2 = clock calls
          /\ damageSounds e2 = S (damageSounds e1))).
Proof.
  intros Hl Hclock e0 e'.
  pose proof (updateGameLogic_hits dt time env now e Hclock) as Hh.
  cbv zeta in Hh. fold e0 e' in Hh.
  assert (Hiff : gateOpen now e
                 && existsb (fun o => confirmedCollision
                                        (advance (speedRef e0) dt o)
                                        (playerStateRef e0)) (obstaclesRef e0)
                 = true
                 <-> exists o, In o (obstaclesRef e0)
                       /\ hitCondition (advance (speedRef e0) dt o)
                            (playerStateRef e0) now (lastHitTimeRef e)).
  { rewrite andb_true_iff, existsb_exists. unfold gateOpen, hitCondition.
    rewrite Qltb_lt. setoid_rewrite confirmedCollision_true.
    split.
    - intros [Hg (o & Hin & Hc)]. exists o. tauto.
    - intros (o & Hin & Hc). split; [tauto |]. exists o. tauto. }
  rewrite <- Hiff.
  destruct (gateOpen now e && existsb _ _) eqn:Hb.
  - destruct Hh as (H1 & H2 & s & H3).
    assert (Hlv : lives (gameState e') = lives (gameState e) - 1)
      by (rewrite H3; now apply loseLife_lives).
    split; [split; [reflexivity | intros _; lia] |].
    split; [intros _; auto |].
    split; [intros Hn; exfalso; lia |].
    split.
    + intros env2 Hy. 
      pose proof (updateGameLogic_hitState dt time env2 e) as Hu.
      pose proof (beforeObstacles_hitState dt time env2 e) as Hbo.
      unfold obstacleLoop in Hu.
      rewrite foldl_processObstacle_no_collision in Hu.
      * simpl in Hu. unfold hitState in *. congruence.
      * intros o _. simpl.
        destruct (confirmedCollision _ _) eqn:Hc; [| reflexivity].
        apply confirmedCollision_true in Hc. exfalso. lra.
    + intros clock calls obs e1 Hl1 e2.
      destruct (checkCollision_spec clock calls obs e1 Hl1) as (Ha & Hb' & _).
      split; assumption.
  - assert (H1 : lastHitTimeRef e' = lastHitTimeRef e)
      by (unfold hitState in Hh; congruence).
    assert (H2 : gameState e' = gameState e)
      by (unfold hitState in Hh; congruence).
    assert (H3 : damageSounds e' = damageSounds e)
      by (unfold hitState in Hh; congruence).
    split; [split; [rewrite H2; lia | discriminate] |].
    split; [rewrite H2; intros Hn; exfalso; lia |].
    split; [intros _; rewrite H1, H2, H3; auto |].
    split.
    + intros env2 Hy. 
      pose proof (updateGameLogic_hitState dt time env2 e) as Hu.
      pose proof (beforeObstacles_hitState dt time env2 e) as Hbo.
      unfold obstacleLoop in Hu.
      rewrite foldl_processObstacle_no_collision in Hu.
      * simpl in Hu. unfold hitState in *. congruence.
      * intros o _. simpl.
        destruct (confirmedCollision _ _) eqn:Hc; [| reflexivity].
        apply confirmedCollision_true in Hc. exfalso. lra.
    + intros clock calls obs e1 Hl1 e2.
      destruct (checkCollision_spec clock calls obs e1 Hl1) as (Ha & Hb' & _).
      split; assumption.
Qed.

Lemma C1_witness :
  1 <= lives (gameState approaching)
  /\ (forall k, nowAt centreEnv k = 5000%Q)
  /\ lives (gameState (updateGameLogic (24 # 10) 5000 centreEnv approaching))
     = lives (gameState approaching) - 1.
Proof.
  assert (H1 : 1 <= lives (gameState approaching))
    by (vm_compute; discriminate).
  assert (H2 : forall k, nowAt centreEnv k = 5000%Q) by reflexivity.
  split; [exact H1 |]. split; [exact H2 |].
  destruct (C1_life_lost_exactly_on_confirmed_hit approaching (24 # 10) 5000
              5000 centreEnv H1 H2) as (_ & Hhit & _).
  apply Hhit. vm_compute. reflexivity.
Defined.

(** ** The jump *)

Lemma updateGameLogic_player dt time env e :
  is_Some (playerGroupRef e) ->
  playerStateRef (updateGameLogic dt time env e)
  = jumpPhysics time (playerStateRef e).
Proof.
  intros [g Hg].
  pose proof (retire_fixed
                (obstacleLoop dt (nowAt env) (beforeObstacles dt time env e)))
    as Hr.
  pose proof (obstacleLoop_fixed dt (nowAt env)
                (beforeObstacles dt time env e)) as Hl.
  pose proof (beforeObstacles_player dt time env e) as Hp.
  rewrite Hg in Hp.
  unfold updateGameLogic, retireFixed, loopFixed in *. congruence.
Qed.

Lemma jumpCurve_vanishes_at_end (eps : Q) :
  (0 < eps)%Q ->
  exists delta, (0 < delta)%Q
    /\ forall t, (0 <= t < 1)%Q -> (1 - t < delta)%Q ->
         (0 <= jumpCurve t < eps)%Q.
Proof.
  intros Heps. exists (eps * (1 # 14))%Q. split.
  - lra.
  - intros t Ht Hd.
    assert (Hd' : (14 * (1 - t) < eps)%Q) by lra.
    unfold jumpCurve, JUMP_HEIGHT. split; nra.
Qed.

(** C2. While the player is jumping, a frame at [time] with
    elapsed = time - jumpStartTime and elapsed/1000 < JUMP_DURATION sets
    yPosition to JUMP_HEIGHT * 4 * t * (1 - t), t = (elapsed/1000) /
    JUMP_DURATION, and the player stays in the air; the curve is 0 at
    t = 0, tends to 0 as t tends to 1, and is JUMP_HEIGHT at t = 1/2; once
    elapsed/1000 >= JUMP_DURATION the frame sets isJumping = false and
    yPosition = 0. *)
Theorem C2_jump_follows_parabola
    (e : Engine) (dt time : Q) (env : FrameEnv) :
  reachable e ->
  isJumping (playerStateRef e) = true ->
  let elapsed := (time - jumpStartTime (playerStateRef e))%Q in
  let player' := playerStateRef (updateGameLogic dt time env e) in
  ((elapsed / 1000 < JUMP_DURATION)%Q ->
     isJumping player' = true
     /\ yPosition player'
        = (JUMP_HEIGHT * 4 * (elapsed / 1000 / JUMP_DURATION)
           * (1 - elapsed / 1000 / JUMP_DURATION))%Q
     /\ (yPosition player' == jumpCurve (elapsed / 1000 / JUMP_DURATION))%Q)
  /\ ((JUMP_DURATION <= elapsed / 1000)%Q ->
      isJumping player' = false /\ yPosition player' = 0%Q)
  /\ (jumpCurve 0 == 0)%Q
  /\ (jumpCurve (1 # 2) == JUMP_HEIGHT)%Q
  /\ (jumpCurve 1 == 0)%Q
  /\ (forall eps, (0 < eps)%Q ->
      exists delta, (0 < delta)%Q
        /\ forall t, (0 <= t < 1)%Q -> (1 - t < delta)%Q ->
             (0 <= jumpCurve t < eps)%Q).
Proof.
  intros Hr Hj elapsed player'.
  assert (Hp : player' = jumpPhysics time (playerStateRef e)).
  { apply updateGameLogic_player. apply reachable_Inv in Hr as [[] _].
    assumption. }
  rewrite Hp. unfold jumpPhysics. rewrite Hj. fold elapsed.
  split; [| split; [| split; [| split; [| split]]]].
  - intros H. apply Qltb_lt in H. rewrite H.
    split; [reflexivity |]. split; reflexivity.
  - intros H. apply Qltb_ge in H. rewrite H. split; reflexivity.
  - reflexivity.
  - reflexivity.
  - reflexivity.
  - exact jumpCurve_vanishes_at_end.
Qed.

Lemma C2_witness :
  reachable jumping
  /\ isJumping (playerStateRef jumping) = true
  /\ (yPosition (playerStateRef (updateGameLogic 0 1550 centreEnv jumping))
      == JUMP_HEIGHT)%Q
  /\ yPosition (playerStateRef (updateGameLogic 0 1900 centreEnv jumping))
     = 0%Q.
Proof.
  assert (H1 : reachable jumping)
    by (apply reachable_run, reachable_mount).
  assert (H2 : isJumping (playerStateRef jumping) = true) by reflexivity.
  split; [exact H1 |]. split; [exact H2 |].
  split.
  - destruct (C2_jump_follows_parabola jumping 0 1550 centreEnv H1 H2)
      as (Hup & _).
    destruct Hup as (_ & _ & Hy); [reflexivity |].
    rewrite Hy. reflexivity.
  - destruct (C2_jump_follows_parabola jumping 0 1900 centreEnv H1 H2)
      as (_ & Hdown & _).
    apply Hdown. vm_compute. discriminate.
Defined.

(** C3. Every frame recomputes the speed from the current score alone:
    speed = clamp(START_SPEED + score/50, START_SPEED, MAX_SPEED), with
    START_SPEED = 15 and MAX_SPEED = 40; the speed of every reachable
    state lies in [START_SPEED, MAX_SPEED], and the speed is monotonically
    non-decreasing in the score. *)
Theorem C3_speed_is_clamped_function_of_score (e : Engine) :
  reachable e ->
  (forall dt time env,
      speedRef (updateGameLogic dt time env e) = difficulty (scoreRef e)
      /\ (speedRef (updateGameLogic dt time env e) == spec_speed (scoreRef e))%Q)
  /\ (START_SPEED <= speedRef e <= MAX_SPEED)%Q
  /\ (START_SPEED == 15)%Q /\ (MAX_SPEED == 40)%Q
  /\ (forall s1 s2, s1 <= s2 -> (difficulty s1 <= difficulty s2)%Q).
Proof.
  intros Hr. apply reachable_Inv in Hr as [[Hs Hv _ _ _ _ _ _] _].
  split; [| split; [exact Hv | split; [reflexivity | split; [reflexivity |]]]].
  - intros dt time env. rewrite updateGameLogic_speed.
    split; [reflexivity | now apply difficulty_clamp].
  - exact difficulty_mono.
Qed.

Lemma C3_witness :
  reachable scored
  /\ scoreRef scored = 10
  /\ (speedRef (updateGameLogic 0 6100 centreEnv scored) == 76 # 5)%Q.
Proof.
  assert (H1 : reachable scored) by (apply reachable_run, reachable_mount).
  split; [exact H1 |]. split; [reflexivity |].
  destruct (C3_speed_is_clamped_function_of_score scored H1) as (Hf & _).
  destruct (Hf 0%Q 6100%Q centreEnv) as [-> _]. vm_compute. reflexivity.
Defined.

(** C7. A LEFT gesture lowers the logical lane by one and a RIGHT gesture
    raises it by one, at once and clamped to [0, 2] (LEFT at lane 0 and
    RIGHT at lane 2 change nothing); the lane of every reachable state is
    0, 1 or 2; and the collision test compares the obstacle's lane with
    this logical lane: it does not read the player group's lerped x.  The
    gesture changes the lane and leaves the player group where it is; the
    test succeeds exactly for an obstacle in the band, in the logical
    lane, with the player below 1.1; and with the obstacle in the band,
    the player low and the invincibility gate open, the collision block
    takes a life exactly when the two lanes are equal, wherever the
    player group is. *)
Theorem C7_lane_steps_clamped (e : Engine) :
  reachable e ->
  let player := playerStateRef e in
  (lane player = 0 \/ lane player = 1 \/ lane player = 2)
  /\ (forall now,
      lane (applyGesture LEFT now player) = Z.max 0 (lane player - 1)
      /\ lane (applyGesture RIGHT now player) = Z.min 2 (lane player + 1))
  /\ (forall gesture now effectNow,
      isPlaying (gameState e) = true -> gameOver (gameState e) = false ->
      isPaused (gameState e) = false ->
      playerStateRef (step e (Pose gesture now, effectNow))
      = applyGesture gesture now player)
  /\ (forall obs,
      confirmedCollision obs player = true
      <-> (-1 < obs_z obs < 1)%Q /\ obs_lane obs = lane player
          /\ (yPosition player < 11 # 10)%Q)
  /\ (forall clock calls obs group,
      fst (checkCollision clock calls obs (set_playerGroup group e))
      = set_playerGroup group (fst (checkCollision clock calls obs e)))
  /\ (forall gesture now effectNow,
      playerGroupRef (step e (Pose gesture now, effectNow))
      = playerGroupRef e)
  /\ (forall clock calls obs group,
      1 <= lives (gameState e) ->
      (-1 < obs_z obs < 1)%Q -> (yPosition player < 11 # 10)%Q ->
      (INVINCIBILITY_DURATION < clock calls - lastHitTimeRef e)%Q ->
      (lives (gameState
                (fst (checkCollision clock calls obs
                        (set_playerGroup group e))))
       = lives (gameState e) - 1
       <-> obs_lane obs = lane player)).
Proof.
  intros Hr player. apply reachable_Inv in Hr as [[_ _ Hl _ _ _ _ _] _].
  fold player in Hl.
  assert (Hcomm : forall clock calls obs group,
             fst (checkCollision clock calls obs (set_playerGroup group e))
             = set_playerGroup group (fst (checkCollision clock calls obs e))).
  { intros clock calls obs group. unfold checkCollision. simpl.
    destruct (confirmedCollision _ _); simpl; [| reflexivity].
    unfold applyHit. simpl. destruct (Qltb _ _); reflexivity. }
  split; [lia |]. split; [| split; [| split; [| split; [| split]]]].
  - intros now. unfold applyGesture.
    destruct (0 <? lane player) eqn:H0; destruct (lane player <? 2) eqn:H2;
      simpl; rewrite ?Z.ltb_lt, ?Z.ltb_ge in *; lia.
  - intros gesture now effectNow Hp Ho Hq. unfold step. simpl.
    unfold inputEffect. rewrite Hp, Ho, Hq. simpl.
    unfold commitEffects. simpl. rewrite !eqb_reflx. reflexivity.
  - intros obs. apply confirmedCollision_true.
  - exact Hcomm.
  - intros gesture now effectNow. unfold step. cbn [fst snd handle].
    unfold inputEffect.
    destruct (negb (isPlaying (gameState e)) || gameOver (gameState e)
              || isPaused (gameState e)).
    + unfold commitEffects. rewrite !eqb_reflx. reflexivity.
    + unfold commitEffects. simpl. rewrite !eqb_reflx. reflexivity.
  - intros clock calls obs group Hlives Hband Hy Hgate.
    rewrite Hcomm. cbn [gameState set_playerGroup].
    destruct (checkCollision_spec clock calls obs e Hlives)
      as (Hiff & Hone & _).
    cbv zeta in Hiff, Hone. unfold hitCondition in Hiff. fold player in Hiff.
    split.
    + intros Hlost.
      assert (Hlt : lives (gameState (fst (checkCollision clock calls obs e)))
                    < lives (gameState e)) by lia.
      apply Hiff in Hlt. tauto.
    + intros Hlane. apply Hone, Hiff. tauto.
Qed.

Lemma C7_witness :
  reachable approaching
  /\ lane (playerStateRef
             (step approaching (Pose LEFT 2700, 2700%Q))) = 0
  /\ lane (playerStateRef
             (step (step approaching (Pose LEFT 2700, 2700%Q))
                (Pose LEFT 2800, 2800%Q))) = 0.
Proof.
  assert (H1 : reachable approaching)
    by (apply reachable_run, reachable_mount).
  split; [exact H1 |]. split.
  - destruct (C7_lane_steps_clamped approaching H1) as (_ & Hg & Hs & _).
    rewrite Hs by reflexivity. rewrite (proj1 (Hg 2700%Q)). reflexivity.
  - assert (H2 : reachable (step approaching (Pose LEFT 2700, 2700%Q)))
      by (apply reachable_step; exact H1).
    destruct (C7_lane_steps_clamped _ H2) as (_ & Hg & Hs & _).
    rewrite Hs by reflexivity. rewrite (proj1 (Hg 2800%Q)). reflexivity.
Defined.

(** ** Re-entrancy of the collision check *)

Lemma applyHit_closed now e : gateOpen now e = false -> applyHit now e = e.
Proof. unfold applyHit, gateOpen. now intros ->. Qed.

Lemma applyHit_lastHit now e :
  gateOpen now e = true -> lastHitTimeRef (applyHit now e) = now.
Proof. unfold applyHit, gateOpen. now intros ->. Qed.

Lemma hitOnce_bounds now e0 e :
  hitOnce now e0 e ->
  damageSounds e = S (damageSounds e0)
  /\ lives (gameState e0) - 1 <= lives (gameState e)
  /\ gateOpen now e = false.
Proof.
  intros (H1 & H2 & s & H3). split; [exact H2 |]. split.
  - rewrite H3. apply loseLife_lives_ge.
  - now apply gate_closed_after_hit.
Qed.

Lemma hitState_eq e e' :
  hitState e' = hitState e ->
  lastHitTimeRef e' = lastHitTimeRef e
  /\ gameState e' = gameState e
  /\ damageSounds e' = damageSounds e.
Proof. unfold hitState. intros H. repeat split; congruence. Qed.

(** C6. Two runs of the collision check at one timestamp [now] apply at
    most one hit in total: once a hit has set lastHitTime = now, the gate
    now - lastHitTime > INVINCIBILITY_DURATION is false at the same now
    (INVINCIBILITY_DURATION = 2000 > 0), so neither a second check of an
    obstacle nor a second pass of the whole frame takes another life. *)
Theorem C6_no_double_hit_at_same_timestamp
    (e : Engine) (now : Q) (obs1 obs2 : Obstacle3D) (k1 k2 : nat)
    (dt1 dt2 time1 time2 r1 r2 : Q) (id1 id2 : string) :
  let clock := fun _ : nat => now in
  let e1 := fst (checkCollision clock k1 obs1 e) in
  let e2 := fst (checkCollision clock k2 obs2 e1) in
  let f1 := updateGameLogic dt1 time1 (mkFrameEnv r1 id1 clock) e in
  let f2 := updateGameLogic dt2 time2 (mkFrameEnv r2 id2 clock) f1 in
  (INVINCIBILITY_DURATION == 2000)%Q
  /\ gateOpen now (applyHit now e) = false
  /\ (e1 <> e -> e2 = e1)
  /\ (damageSounds e2 <= S (damageSounds e))%nat
  /\ lives (gameState e) - 1 <= lives (gameState e2)
  /\ (hitState f1 <> hitState e -> hitState f2 = hitState f1)
  /\ (damageSounds f2 <= S (damageSounds e))%nat
  /\ lives (gameState e) - 1 <= lives (gameState f2).
Proof.
  intros clock e1 e2 f1 f2.
  assert (Hclosed : gateOpen now (applyHit now e) = false).
  { destruct (gateOpen now e) eqn:Hg.
    - apply gate_closed_after_hit. now apply applyHit_lastHit.
    - now rewrite applyHit_closed. }
  split; [reflexivity |]. split; [exact Hclosed |].
  assert (Hchecks : (e1 <> e -> e2 = e1)
                    /\ (damageSounds e2 <= S (damageSounds e))%nat
                    /\ lives (gameState e) - 1 <= lives (gameState e2)).
  { subst e1 e2 clock. unfold checkCollision.
    destruct (confirmedCollision obs1 (playerStateRef e)); simpl.
    - assert (Hp : playerStateRef (applyHit now e) = playerStateRef e).
      { pose proof (applyHit_fixed now e) as Hf. unfold loopFixed in Hf.
        congruence. }
      rewrite Hp.
      pose proof (applyHit_hitState now e) as Hh.
      destruct (confirmedCollision obs2 (playerStateRef e)); simpl.
      + rewrite (applyHit_closed now (applyHit now e) Hclosed).
        split; [reflexivity |].
        destruct (gateOpen now e); unfold hitState in Hh;
          injection Hh as H1 H2 H3; rewrite H2, H3.
        * split; [lia | apply loseLife_lives_ge].
        * split; lia.
      + split; [reflexivity |].
        destruct (gateOpen now e); unfold hitState in Hh;
          injection Hh as H1 H2 H3; rewrite H2, H3.
        * split; [lia | apply loseLife_lives_ge].
        * split; lia.
    - split; [intros H; now elim H |].
      destruct (confirmedCollision obs2 (playerStateRef e)); simpl.
      + pose proof (applyHit_hitState now e) as Hh.
        destruct (gateOpen now e); unfold hitState in Hh;
          injection Hh as H1 H2 H3; rewrite H2, H3.
        * split; [lia | apply loseLife_lives_ge].
        * split; lia.
      + split; lia. }
  destruct Hchecks as (Hc1 & Hc2 & Hc3).
  split; [exact Hc1 |]. split; [exact Hc2 |]. split; [exact Hc3 |].
  pose proof (updateGameLogic_hits dt1 time1 (mkFrameEnv r1 id1 clock) now e
                (fun _ => eq_refl)) as Hf1.
  pose proof (updateGameLogic_hits dt2 time2 (mkFrameEnv r2 id2 clock) now f1
                (fun _ => eq_refl)) as Hf2.
  cbv zeta in Hf1, Hf2. fold f1 in Hf1, Hf2. fold f2 in Hf2.
  clearbody f1 f2.
  destruct (gateOpen now e && existsb _ _).
  - apply hitOnce_bounds in Hf1 as (Hs1 & Hl1 & Hg1).
    rewrite Hg1 in Hf2. simpl in Hf2.
    split; [intros _; exact Hf2 |].
    apply hitState_eq in Hf2 as (_ & H2 & H3). rewrite H2, H3.
    split; lia.
  - split; [intros H; now elim H |].
    apply hitState_eq in Hf1 as (_ & H2 & H3).
    destruct (gateOpen now f1 && existsb _ _).
    + apply hitOnce_bounds in Hf2 as (Hs2 & Hl2 & _).
      rewrite H2 in Hl2. rewrite H3 in Hs2. split; lia.
    + apply hitState_eq in Hf2 as (_ & H5 & H6).
      rewrite H5, H6, H2, H3. split; lia.
Qed.

(** ** What a hit writes *)

Lemma confirmedCollision_not_passing v dt obs player :
  confirmedCollision (advance v dt obs) player = true ->
  passes v dt obs = false.
Proof.
  intros H. apply confirmedCollision_true in H as [[_ Hz] _].
  unfold passes. apply Qltb_ge. lra.
Qed.

(** C10. A hit writes lastHitTime, lives and, when it takes the last
    life, the gameOver flag and the reported score (and it calls the damage
    hook); every other ref and every other field of the React state is
    left as it was: the obstacle list, the meshes, the score accumulator and
    the player's lane, isJumping, jumpStartTime and yPosition.  The
    obstacle that hit goes on in the loop with its passed flag unchanged and
    is not marked for removal, so it hits again once the invincibility
    window is over if it is still in the band. *)
Theorem C10_hit_writes_only_hit_fields (e : Engine) (now : Q) :
  gateOpen now e = true ->
  let e' := applyHit now e in
  (playerStateRef e' = playerStateRef e
   /\ playerGroupRef e' = playerGroupRef e
   /\ obstaclesRef e' = obstaclesRef e
   /\ obstacleMeshesRef e' = obstacleMeshesRef e
   /\ scoreRef e' = scoreRef e
   /\ loopFixed e' = loopFixed e)
  /\ (lastHitTimeRef e' = now /\ damageSounds e' = S (damageSounds e))
  /\ (isPlaying (gameState e') = isPlaying (gameState e)
      /\ isPaused (gameState e') = isPaused (gameState e)
      /\ speed (gameState e') = speed (gameState e)
      /\ cameraReady (gameState e') = cameraReady (gameState e)
      /\ lastLaneChange (gameState e') = lastLaneChange (gameState e))
  /\ (1 < lives (gameState e) ->
      lives (gameState e') = lives (gameState e) - 1
      /\ gameOver (gameState e') = gameOver (gameState e)
      /\ score (gameState e') = score (gameState e))
  /\ (lives (gameState e) <= 1 ->
      lives (gameState e') = 0
      /\ gameOver (gameState e') = true
      /\ score (gameState e') = scoreRef e)
  /\ (forall dt clock lp obs,
      confirmedCollision (advance (speedRef (lp_engine lp)) dt obs)
        (playerStateRef (lp_engine lp)) = true ->
      let lp' := processObstacle dt clock lp obs in
      lp_done lp' = lp_done lp ++ [advance (speedRef (lp_engine lp)) dt obs]
      /\ obs_passed (advance (speedRef (lp_engine lp)) dt obs) = obs_passed obs
      /\ lp_toRemove lp' = lp_toRemove lp
      /\ scoreRef (lp_engine lp') = scoreRef (lp_engine lp))
  /\ (forall now2 calls obs,
      confirmedCollision obs (playerStateRef e) = true ->
      (INVINCIBILITY_DURATION < now2 - now)%Q ->
      let e2 := fst (checkCollision (fun _ => now2) calls obs e') in
      lastHitTimeRef e2 = now2
      /\ damageSounds e2 = S (S (damageSounds e))
      /\ gameState e2 = loseLife (scoreRef e) (loseLife (scoreRef e) (gameState e))).
Proof.
  intros Hg e'.
  assert (He : e' = set_gameState (loseLife (scoreRef e) (gameState e))
                      (set_lastHitTime now
                         (set_damageSounds (S (damageSounds e)) e))).
  { subst e'. unfold applyHit. unfold gateOpen in Hg. now rewrite Hg. }
  clearbody e'. subst e'.
  split; [repeat split |]. split; [split; reflexivity |].
  split; [simpl; unfold loseLife; destruct (_ <=? _); repeat split |].
  split; [| split; [| split]].
  - intros Hl. simpl. unfold loseLife.
    destruct (lives (gameState e) - 1 <=? 0) eqn:Hc;
      [apply Z.leb_le in Hc; lia | repeat split].
  - intros Hl. simpl. unfold loseLife.
    destruct (lives (gameState e) - 1 <=? 0) eqn:Hc;
      [repeat split | apply Z.leb_gt in Hc; lia].
  - intros dt clock lp obs Hc lp'.
    destruct (processObstacle_content dt clock lp obs) as (Hd & Hr & Hs).
    cbv zeta in Hd, Hr, Hs. fold lp' in Hd, Hr, Hs.
    pose proof (confirmedCollision_not_passing _ _ _ _ Hc) as Hp.
    unfold settle, awards in *. rewrite Hp in *. simpl in *.
    rewrite app_nil_r in Hr. rewrite Z.add_0_r in Hs. auto.
  - intros now2 calls obs Hc Hw e2. subst e2. unfold checkCollision.
    simpl playerStateRef. rewrite Hc. simpl fst.
    unfold applyHit. simpl lastHitTimeRef.
    apply Qltb_lt in Hw. rewrite Hw. repeat split.
Qed.

(** The frame in which the obstacle of [approaching] reaches the player,
    read at clock 5000. *)
Lemma C10_witness :
  gateOpen 5000 approaching = true
  /\ lives (gameState (applyHit 5000 approaching)) = 2
  /\ obstaclesRef (applyHit 5000 approaching) = obstaclesRef approaching
  /\ scoreRef (applyHit 5000 approaching) = scoreRef approaching.
Proof.
  assert (H1 : gateOpen 5000 approaching = true) by reflexivity.
  split; [exact H1 |].
  destruct (C10_hit_writes_only_hit_fields approaching 5000 H1)
    as ((_ & _ & Ho & _ & Hs & _) & _ & _ & Hl & _).
  split; [| split; [exact Ho | exact Hs]].
  destruct Hl as (-> & _); [vm_compute; reflexivity | reflexivity].
Defined.

Example same_obstacle_hits_again_after_pause :
  lives (gameState (step approaching (Frame 5000 hitEnv, 5000%Q))) = 2
  /\ lives (gameState hitTwice) = 1
  /\ damageSounds hitTwice = 2%nat
  /\ map obs_id (List.filter (fun o => confirmedCollision o (playerStateRef hitTwice))
                   (obstaclesRef hitTwice)) = ["0.5"].
Proof. vm_compute. repeat split. Qed.

(** ** Lives and game over *)

Lemma commitEffects_same now e : commitEffects (gameState e) now e = e.
Proof. unfold commitEffects. now rewrite !eqb_reflx. Qed.

(** C4. In every reachable state lives is in [0, 3]: it is 3 when the
    component mounts and when a game starts, a hit on a running game takes
    exactly one life and never goes below 0, and the hit that takes the last
    life sets gameOver and reports the score accumulator; once lives is 0
    the game is over, the animation loop is off, and frames and gestures
    leave the state as it is. *)
Theorem C4_lives_bounded_game_over_terminal (e : Engine) :
  reachable e ->
  0 <= lives (gameState e) <= 3
  /\ (forall now, lives (gameState (mount now)) = 3)
  /\ lives (handleStart (gameState e)) = 3
  /\ lives (handleRestart (gameState e)) = 3
  /\ (forall now,
      gameOver (gameState e) = false -> gateOpen now e = true ->
      let e' := applyHit now e in
      lives (gameState e') = lives (gameState e) - 1
      /\ 0 <= lives (gameState e')
      /\ (lives (gameState e') = 0 ->
          gameOver (gameState e') = true
          /\ score (gameState e') = scoreRef e))
  /\ (lives (gameState e) = 0 ->
      gameOver (gameState e) = true
      /\ isPlayingRef e = false
      /\ (forall time env effectNow, step e (Frame time env, effectNow) = e)
      /\ (forall gesture now effectNow,
          step e (Pose gesture now, effectNow) = e)).
Proof.
  intros Hr. apply reachable_Inv in Hr as [[_ _ _ [Hl Ha] _ _ _ _] [Hp _]].
  split; [exact Hl |]. split; [reflexivity |].
  split; [reflexivity |]. split; [reflexivity |]. split.
  - intros now Ho Hg e'. specialize (Ha Ho).
    pose proof (applyHit_hitState now e) as Hh. rewrite Hg in Hh.
    apply (f_equal (fun x => snd (fst x))) in Hh. simpl in Hh.
    fold e' in Hh. clearbody e'. rewrite Hh.
    rewrite (loseLife_lives _ _ Ha).
    split; [reflexivity |]. split; [lia |].
    intros H0. unfold loseLife.
    replace (lives (gameState e) - 1 <=? 0) with true
      by (symmetry; apply Z.leb_le; lia).
    split; reflexivity.
  - intros H0.
    assert (Ho : gameOver (gameState e) = true).
    { destruct (gameOver (gameState e)); [reflexivity |].
      specialize (Ha eq_refl). lia. }
    assert (Hq : isPlayingRef e = false)
      by (rewrite Hp, Ho; apply andb_false_r).
    split; [exact Ho |]. split; [exact Hq |]. split.
    + intros time env effectNow. unfold step. simpl. unfold animate.
      rewrite Hq. simpl. apply commitEffects_same.
    + intros gesture now effectNow. unfold step. simpl. unfold inputEffect.
      rewrite Ho, orb_true_r. simpl. apply commitEffects_same.
Qed.

Lemma C4_witness :
  reachable threeHits
  /\ lives (gameState threeHits) = 0
  /\ gameOver (gameState threeHits) = true
  /\ step threeHits (Frame 12000 lastEnv, 12000%Q) = threeHits.
Proof.
  assert (H1 : reachable threeHits).
  { unfold threeHits, hitTwice, approaching.
    repeat apply reachable_run. apply reachable_mount. }
  assert (H0 : lives (gameState threeHits) = 0) by reflexivity.
  split; [exact H1 |]. split; [exact H0 |].
  destruct (C4_lives_bounded_game_over_terminal threeHits H1)
    as (_ & _ & _ & _ & _ & Hover).
  destruct (Hover H0) as (Ho & _ & Hf & _).
  split; [exact Ho | apply Hf].
Defined.

(** ** Passing and retirement *)

Lemma beforeObstacles_unpassed dt time env e :
  Forall (λ o, obs_passed o = false) (obstaclesRef e) ->
  Forall (λ o, obs_passed o = false)
    (obstaclesRef (beforeObstacles dt time env e)).
Proof.
  intros Hpass.
  destruct (beforeObstacles_obstacles dt time env e) as [-> | ->];
    [exact Hpass |].
  apply Forall_app. split; [exact Hpass |].
  apply Forall_cons. split; [reflexivity | apply Forall_nil_2].
Qed.

(** A pass threshold ahead of the retirement threshold would mark and
    award an obstacle while it is still live.  In [almostRetired] the
    obstacle "0.5" is 4.875 beyond the player, an eighth short of the
    retirement test: it is live, not marked passed, and the score is still
    0.  The next frame takes it to 5.25: that one frame adds the 10 and
    removes the obstacle, so it is never seen live and passed. *)
Lemma C5_counterexample :
  let view := map (fun o => (obs_id o, Qred (obs_z o), obs_passed o)) in
  let after := step almostRetired (Frame 5350 rightEnv, 5350%Q) in
  view (obstaclesRef almostRetired)
  = [("0.5", (39 # 8)%Q, false); ("0.25", (-153 # 8)%Q, false)]
  /\ scoreRef almostRetired = 0
  /\ view (obstaclesRef after) = [("0.25", (-75 # 4)%Q, false)]
  /\ scoreRef after = 10.
Proof.
  cbv zeta. repeat split; vm_compute; reflexivity.
Qed.

(** C5 (amended). An obstacle adds 10 to the score in the frame in which
    its z first exceeds 5, and the same frame retires it: passing and
    retirement are one test, so no live obstacle is ever marked passed and
    no obstacle adds to the score twice.  The award does not depend on a
    collision (a hit leaves the score accumulator and the obstacle list as
    they were), passing is the only thing that writes the score
    accumulator in a frame, and the score never decreases in a frame. *)
Theorem C5_award_and_retire_in_one_frame
    (e : Engine) (dt time : Q) (env : FrameEnv) :
  reachable e ->
  let e0 := beforeObstacles dt time env e in
  let v := speedRef e0 in
  let e' := updateGameLogic dt time env e in
  scoreRef e'
  = scoreRef e
    + 10 * Z.of_nat
             (length (List.filter (fun o => Qltb 5 (obs_z o + v * dt))
                        (obstaclesRef e0)))
  /\ (forall o, In o (obstaclesRef e0) -> (5 < obs_z o + v * dt)%Q ->
      forall o', In o' (obstaclesRef e') -> obs_id o' <> obs_id o)
  /\ (forall o', In o' (obstaclesRef e') ->
      obs_passed o' = false /\ (obs_z o' <= 5)%Q)
  /\ scoreRef e <= scoreRef e'
  /\ (forall now e1,
      scoreRef (applyHit now e1) = scoreRef e1
      /\ obstaclesRef (applyHit now e1) = obstaclesRef e1).
Proof.
  intros Hr e0 v e'.
  apply reachable_Inv in Hr as [[_ _ _ _ _ _ _ Hpass] _].
  pose proof (beforeObstacles_unpassed dt time env e Hpass) as Hpass0.
  fold e0 in Hpass0. rewrite Forall_forall in Hpass0.
  pose proof (updateGameLogic_score dt time env e) as Hs.
  pose proof (updateGameLogic_obstacles dt time env e) as Ho.
  cbv zeta in Hs, Ho. fold e0 e' in Hs, Ho. fold v in Hs, Ho.
  assert (Hf : List.filter (awards v dt) (obstaclesRef e0)
               = List.filter (fun o => Qltb 5 (obs_z o + v * dt))
                   (obstaclesRef e0)).
  { apply filter_ext_in. intros o Hin. unfold awards, passes. simpl.
    rewrite (Hpass0 o) by (now apply list_elem_of_In).
    apply andb_true_r. }
  rewrite Hf in Hs. clearbody e' e0.
  split; [exact Hs |]. split; [| split; [| split]].
  - intros o Hin Hz o' Hin' Hid. rewrite Ho in Hin'.
    apply list_elem_of_In, list_elem_of_filter in Hin' as [Hnot _].
    apply Hnot. rewrite Hid. apply list_elem_of_In, in_map.
    apply filter_In. split; [exact Hin |].
    unfold passes. simpl. now apply Qltb_lt.
  - intros o' Hin'. rewrite Ho in Hin'.
    apply list_elem_of_In, survivor_origin in Hin' as (o & Hin & Hp & ->).
    simpl. split; [now apply Hpass0 |].
    unfold passes in Hp. simpl in Hp. now apply Qltb_ge in Hp.
  - rewrite Hs. lia.
  - intros now e1. split; [apply applyHit_score |].
    pose proof (applyHit_fixed now e1) as Hfx. unfold loopFixed in Hfx.
    congruence.
Qed.

Lemma C5_witness :
  reachable sidestepped
  /\ scoreRef (updateGameLogic (34 # 10) 6000 rightEnv sidestepped) = 10.
Proof.
  assert (H1 : reachable sidestepped)
    by (apply reachable_run, reachable_mount).
  split; [exact H1 |].
  destruct (C5_award_and_retire_in_one_frame sidestepped (34 # 10) 6000
              rightEnv H1) as (Hs & _).
  rewrite Hs. reflexivity.
Defined.

(** ** The frame delta *)

Lemma animate_running time env e :
  isPlayingRef e = true -> isPausedRef e = false ->
  animate time env e
  = updateGameLogic ((time - lastTimeRef e) / 1000)%Q time env
      (set_lastTime time e).
Proof. intros Hp Hq. unfold animate. now rewrite Hp, Hq. Qed.

Lemma beforeObstacles_lastSpawn dt time env e :
  lastSpawnTimeRef (beforeObstacles dt time env e)
  = if Qltb (SPAWN_INTERVAL_BASE * 1000 / (difficulty (scoreRef e) / 15))%Q
            (time - lastSpawnTimeRef e)%Q
    then time else lastSpawnTimeRef e.
Proof.
  unfold beforeObstacles, spawnDue, updatePlayer, spawnObstacle. simpl.
  destruct (playerGroupRef e); simpl; destruct (Qltb _ _); simpl;
    try reflexivity; destruct (sceneRef e); simpl; try reflexivity;
    destruct (lavaMaterialRef e); reflexivity.
Qed.

Lemma updateGameLogic_lastSpawn dt time env e :
  lastSpawnTimeRef (updateGameLogic dt time env e)
  = lastSpawnTimeRef (beforeObstacles dt time env e).
Proof.
  pose proof (retire_fixed
                (obstacleLoop dt (nowAt env) (beforeObstacles dt time env e)))
    as Hr.
  pose proof (obstacleLoop_fixed dt (nowAt env)
                (beforeObstacles dt time env e)) as Hl.
  unfold updateGameLogic, retireFixed, loopFixed in *. congruence.
Qed.

(** The frame after [approaching] arrives with a timestamp 100 ms before
    the previous one: the delta is -1/10 and the obstacle moves from
    z = -36 back to z = -75/2. *)
Lemma C8_counterexample :
  let after := step approaching (Frame 2500 centreEnv, 2500%Q) in
  Qred ((2500 - lastTimeRef approaching) / 1000) = (-1 # 10)%Q
  /\ map (fun o => (obs_id o, Qred (obs_z o))) (obstaclesRef approaching)
     = [("0.5", (-36)%Q)]
  /\ map (fun o => (obs_id o, Qred (obs_z o))) (obstaclesRef after)
     = [("0.5", (-75 # 2)%Q)].
Proof. cbv zeta. repeat split; vm_compute; reflexivity. Qed.

(** C8 (amended). A running frame hands the delta
    (time - lastTime) / 1000 to the update as computed, without clamping
    it.  Every obstacle left after the frame is an obstacle moved by
    speed * delta: a zero delta leaves its z as it was, a non-negative
    delta never decreases it, and a negative delta decreases it.  The
    speed and the spawn test do not read the delta: the speed is a function
    of the score, at least START_SPEED, so the divisor speed / 15 of the
    spawn interval is at least 1. *)
Theorem C8_delta_is_used_unclamped (e : Engine) (time : Q) (env : FrameEnv) :
  reachable e ->
  isPlayingRef e = true -> isPausedRef e = false ->
  let delta := ((time - lastTimeRef e) / 1000)%Q in
  let e0 := beforeObstacles delta time env (set_lastTime time e) in
  let e' := animate time env e in
  e' = updateGameLogic delta time env (set_lastTime time e)
  /\ (forall o', In o' (obstaclesRef e') ->
      exists o, In o (obstaclesRef e0)
        /\ obs_id o' = obs_id o
        /\ obs_z o' = (obs_z o + speedRef e0 * delta)%Q
        /\ ((delta == 0)%Q -> (obs_z o' == obs_z o)%Q)
        /\ ((0 <= delta)%Q -> (obs_z o <= obs_z o')%Q)
        /\ ((delta < 0)%Q -> (obs_z o' < obs_z o)%Q))
  /\ (forall dt1 dt2,
      speedRef (updateGameLogic dt1 time env e)
      = speedRef (updateGameLogic dt2 time env e)
      /\ lastSpawnTimeRef (updateGameLogic dt1 time env e)
         = lastSpawnTimeRef (updateGameLogic dt2 time env e))
  /\ (1 <= speedRef e0 / 15)%Q.
Proof.
  intros Hr Hp Hq delta e0 e'.
  apply reachable_Inv in Hr as [[Hs _ _ _ _ _ _ _] _].
  assert (Hv : speedRef e0 = difficulty (scoreRef e))
    by (unfold e0; now rewrite beforeObstacles_speed).
  pose proof (difficulty_range (scoreRef e) Hs) as [Hlo _].
  rewrite <- Hv in Hlo. unfold START_SPEED in Hlo.
  assert (He : e' = updateGameLogic delta time env (set_lastTime time e))
    by (now apply animate_running).
  pose proof (updateGameLogic_obstacles delta time env (set_lastTime time e))
    as Ho.
  cbv zeta in Ho. fold e0 in Ho. rewrite <- He in Ho.
  clearbody e' e0.
  split; [exact He |]. split; [| split].
  - intros o' Hin'. rewrite Ho in Hin'.
    apply list_elem_of_In, survivor_origin in Hin' as (o & Hin & _ & ->).
    exists o. apply list_elem_of_In in Hin. simpl.
    split; [exact Hin |]. split; [reflexivity |]. split; [reflexivity |].
    split; [intros Hd; rewrite Hd; ring |]. split; intros Hd; nra.
  - intros dt1 dt2. rewrite !updateGameLogic_speed, !updateGameLogic_lastSpawn,
      !beforeObstacles_lastSpawn. split; reflexivity.
  - apply Qle_shift_div_l; [reflexivity | lra].
Qed.

Lemma C8_witness :
  reachable approaching
  /\ map (fun o => (obs_id o, Qred (obs_z o)))
       (obstaclesRef (animate 2700 centreEnv approaching))
     = [("0.5", (-69 # 2)%Q)].
Proof.
  assert (H1 : reachable approaching)
    by (apply reachable_run, reachable_mount).
  split; [exact H1 |].
  destruct (C8_delta_is_used_unclamped approaching 2700 centreEnv H1
              eq_refl eq_refl) as (-> & _).
  vm_compute. reflexivity.
Defined.

(** ** Obstacle ids *)

(** Two frames in a row spawn an obstacle, and [Math.random().toString()]
    returns "0.5" both times: the two obstacles share their id, and the
    mesh map holds one handle for the two meshes of the scene. *)
Lemma C9_counterexample :
  let after := step approaching (Frame 4200 centreEnv, 4200%Q) in
  map obs_id (obstaclesRef after) = ["0.5"; "0.5"]
  /\ sceneRef after = Some [0%nat; 1%nat]
  /\ map (fun kv => (fst kv, mesh_handle (snd kv)))
       (map_to_list (obstacleMeshesRef after)) = [("0.5", 1%nat)].
Proof. cbv zeta. repeat split; vm_compute; reflexivity. Qed.

Lemma spawnObstacle_spec z r id e :
  is_Some (sceneRef e) -> lavaMaterialRef e = true ->
  let e' := spawnObstacle z r id e in
  obstaclesRef e' = obstaclesRef e ++ [mkObstacle id (Qfloor (r * 3)) z false]
  /\ obstacleMeshesRef e'
     = <[id := mkMesh (allocated e)
                 ((inject_Z (Qfloor (r * 3)) - 1) * LANE_WIDTH)%Q z]>
         (obstacleMeshesRef e)
  /\ allocated e' = S (allocated e)
  /\ is_Some (sceneRef e') /\ lavaMaterialRef e' = true.
Proof.
  intros [s Hs] Hl. unfold spawnObstacle. rewrite Hs, Hl. simpl.
  split; [reflexivity |]. split; [reflexivity |]. split; [reflexivity |].
  split; [eauto | exact Hl].
Qed.

(** C9 (amended). Obstacle ids are the strings of [Math.random()] draws.
    Two obstacles spawned in succession whose draws differ receive distinct
    ids, and the mesh map holds under these ids two meshes with distinct
    handles; and a spawn whose draw differs from the ids of all live
    obstacles keeps the ids of the live obstacles pairwise distinct. *)
Theorem C9_distinct_draws_give_distinct_ids
    (e : Engine) (z1 z2 r1 r2 : Q) (id1 id2 : string) :
  reachable e ->
  id1 <> id2 ->
  let e1 := spawnObstacle z1 r1 id1 e in
  let e2 := spawnObstacle z2 r2 id2 e1 in
  (exists o1 o2,
      obstaclesRef e2 = obstaclesRef e ++ [o1; o2]
      /\ obs_id o1 = id1 /\ obs_id o2 = id2 /\ obs_id o1 <> obs_id o2)
  /\ (exists m1 m2,
      obstacleMeshesRef e2 !! id1 = Some m1
      /\ obstacleMeshesRef e2 !! id2 = Some m2
      /\ mesh_handle m1 <> mesh_handle m2)
  /\ (NoDup (map obs_id (obstaclesRef e)) ->
      ~ In id1 (map obs_id (obstaclesRef e)) ->
      ~ In id2 (map obs_id (obstaclesRef e)) ->
      NoDup (map obs_id (obstaclesRef e2))).
Proof.
  intros Hr Hne e1 e2.
  apply reachable_Inv in Hr as [[_ _ _ _ _ Hs Hl _] _].
  destruct (spawnObstacle_spec z1 r1 id1 e Hs Hl) as (Ho1 & Hm1 & Ha1 & Hs1 & Hl1).
  fold e1 in Ho1, Hm1, Ha1, Hs1, Hl1.
  destruct (spawnObstacle_spec z2 r2 id2 e1 Hs1 Hl1) as (Ho2 & Hm2 & _).
  fold e2 in Ho2, Hm2. clearbody e1 e2.
  split; [| split].
  - eexists _, _. rewrite Ho2, Ho1, <- app_assoc. simpl.
    repeat split; assumption.
  - eexists _, _. rewrite Hm2, Hm1.
    rewrite lookup_insert_ne by (intros H; apply Hne; now symmetry).
    rewrite !lookup_insert_eq. repeat split. simpl. rewrite Ha1. lia.
  - intros Hnd Hn1 Hn2. rewrite Ho2, Ho1, <- app_assoc, map_app. simpl.
    apply NoDup_ListNoDup, List.NoDup_app.
    + now apply NoDup_ListNoDup.
    + constructor; [simpl; intros [H | []]; now apply Hne |].
      constructor; [intros [] | constructor].
    + intros x Hx [<- | [<- | []]]; contradiction.
Qed.

Lemma C9_witness :
  reachable approaching
  /\ map obs_id
       (obstaclesRef
          (spawnObstacle (-60) (9 # 10) "0.125"
             (spawnObstacle (-60) (1 # 10) "0.25" approaching)))
     = ["0.5"; "0.25"; "0.125"].
Proof.
  assert (H1 : reachable approaching)
    by (apply reachable_run, reachable_mount).
  assert (H2 : "0.25" <> "0.125") by discriminate.
  split; [exact H1 |].
  destruct (C9_distinct_draws_give_distinct_ids approaching (-60) (-60)
              (1 # 10) (9 # 10) "0.25" "0.125" H1 H2)
    as ((o1 & o2 & Ho & Hi1 & Hi2 & _) & _).
  rewrite Ho, map_app.
  change (map obs_id [o1; o2]) with [obs_id o1; obs_id o2].
  rewrite Hi1, Hi2. vm_compute. reflexivity.
Defined.

(** ** The frame does not read [lastTimeRef] *)

Lemma beforeObstacles_set_lastTime dt time env t e :
  beforeObstacles dt time env (set_lastTime t e)
  = set_lastTime t (beforeObstacles dt time env e).
Proof.
  unfold beforeObstacles, spawnDue, updatePlayer, spawnObstacle. simpl.
  destruct (playerGroupRef e); simpl; destruct (Qltb _ _); simpl;
    try reflexivity; destruct (sceneRef e); simpl; try reflexivity;
    destruct (lavaMaterialRef e); reflexivity.
Qed.

Lemma processObstacle_set_lastTime dt clock t lp obs :
  processObstacle dt clock (loop_set_lastTime t lp) obs
  = loop_set_lastTime t (processObstacle dt clock lp obs).
Proof.
  unfold processObstacle, checkCollision, syncMesh, applyHit. simpl.
  destruct (obstacleMeshesRef (lp_engine lp) !! obs_id obs); simpl;
    destruct (confirmedCollision _ _); simpl;
    try destruct (Qltb INVINCIBILITY_DURATION _); simpl;
    destruct (Qltb 5 _); try destruct (obs_passed obs); reflexivity.
Qed.

Lemma foldl_processObstacle_set_lastTime dt clock t l : forall lp,
  foldl (processObstacle dt clock) (loop_set_lastTime t lp) l
  = loop_set_lastTime t (foldl (processObstacle dt clock) lp l).
Proof.
  induction l as [| obs l IH]; intros lp; simpl; [reflexivity |].
  now rewrite processObstacle_set_lastTime, IH.
Qed.

Lemma foldl_removeObstacleMesh_set_lastTime t ids : forall e,
  foldl removeObstacleMesh (set_lastTime t e) ids
  = set_lastTime t (foldl removeObstacleMesh e ids).
Proof.
  induction ids as [| id ids IH]; intros e; simpl; [reflexivity |].
  rewrite <- IH. f_equal. unfold removeObstacleMesh. simpl.
  destruct (obstacleMeshesRef e !! id), (sceneRef e); reflexivity.
Qed.

Lemma updateGameLogic_set_lastTime dt time env t e :
  updateGameLogic dt time env (set_lastTime t e)
  = set_lastTime t (updateGameLogic dt time env e).
Proof.
  unfold updateGameLogic, obstacleLoop.
  rewrite beforeObstacles_set_lastTime.
  change (mkLoop (set_lastTime t (beforeObstacles dt time env e)) O [] [])
    with (loop_set_lastTime t
            (mkLoop (beforeObstacles dt time env e) O [] [])).
  change (obstaclesRef (set_lastTime t (beforeObstacles dt time env e)))
    with (obstaclesRef (beforeObstacles dt time env e)).
  rewrite foldl_processObstacle_set_lastTime.
  unfold retire, loop_set_lastTime. simpl.
  change (set_obstacles ?l (set_lastTime t ?x))
    with (set_lastTime t (set_obstacles l x)).
  rewrite foldl_removeObstacleMesh_set_lastTime. reflexivity.
Qed.

(** A running frame is the update of the state it starts from, at the
    delta since the last frame; only [lastTimeRef] records the new time. *)
Lemma animate_is_updateGameLogic time env e :
  isPlayingRef e = true -> isPausedRef e = false ->
  animate time env e
  = set_lastTime time
      (updateGameLogic ((time - lastTimeRef e) / 1000)%Q time env e).
Proof.
  intros Hp Hq. rewrite animate_running by assumption.
  apply updateGameLogic_set_lastTime.
Qed.

(** * Further properties of the engine *)

(** ** Pause and resume *)


(** The second run of the input effect is a [Pose] event of the session. *)
Lemma inputEffect_as_step gesture now e :
  inputEffect gesture now e = step e (Pose gesture now, now).
Proof.
  unfold step. cbn [fst snd handle].
  assert (H : gameState (inputEffect gesture now e) = gameState e).
  { unfold inputEffect.
    now destruct (negb (isPlaying (gameState e)) || gameOver (gameState e)
                  || isPaused (gameState e)). }
  rewrite <- H. symmetry. apply commitEffects_same.
Qed.

Lemma stepHeld_reachable e ev held :
  reachable e -> reachable (stepHeld e ev held).
Proof.
  intros Hr. unfold stepHeld, inputRerun.
  destruct (_ && _ && _); [now apply reachable_step |].
  destruct held as [[gesture now] |]; [| now apply reachable_step].
  rewrite inputEffect_as_step. now do 2 apply reachable_step.
Qed.

(** X2. Pausing a running game and resuming it before any frame gives
    back the state the pause started from, up to the input effect that
    runs again on resume: with no pose sample held the state is the one
    before the pause; with a sample held, the gesture read from it is
    applied to that state once more.  The pause itself applies no
    gesture. *)
Theorem pause_then_resume_restores_state
    (e : Engine) (n1 n2 : Q) (held1 held2 : option (Gesture * Q)) :
  reachable e ->
  isPaused (gameState e) = false ->
  let paused := stepHeld e (Pause, n1) held1 in
  let resumed := stepHeld paused (Resume, n2) held2 in
  paused = step e (Pause, n1)
  /\ resumed = match held2 with
               | Some (gesture, now) => inputEffect gesture now e
               | None => e
               end
  /\ reachable resumed.
Proof.
  intros Hr Hq paused resumed.
  assert (H1 : paused = step e (Pause, n1)).
  { unfold paused, stepHeld, inputRerun.
    destruct (_ && _ && _); [reflexivity |].
    destruct held1 as [[gesture now] |]; [| reflexivity].
    unfold inputEffect.
    replace (isPaused (gameState (step e (Pause, n1)))) with true.
    - now rewrite orb_true_r.
    - unfold step, commitEffects. simpl. rewrite !eqb_reflx, Hq. reflexivity. }
  assert (H2 : step paused (Resume, n2) = e).
  { rewrite H1. pose proof Hr as Hi.
    apply reachable_Inv in Hi as [_ [_ Hqr]]. rewrite Hq in Hqr.
    unfold step, commitEffects. simpl. rewrite !eqb_reflx, Hq. simpl.
    destruct e as [? ? ? ? ? ? ? ? ? ? ? ? qr gs ? ?].
    destruct gs as [? q ? ? ? ? ? ?]. simpl in *. subst. reflexivity. }
  split; [exact H1 |]. split.
  - unfold resumed, stepHeld, inputRerun. rewrite H2.
    replace (isPaused (gameState paused)) with true.
    + rewrite Hq. cbn [eqb]. rewrite andb_false_r. reflexivity.
    + rewrite H1. unfold step, commitEffects. simpl.
      rewrite !eqb_reflx, Hq. reflexivity.
  - unfold resumed, paused. now do 2 apply stepHeld_reachable.
Qed.

(** ** Starting again *)

(** The commit that follows [Restart] or [Start], before the input effect
    runs again. *)
Lemma restart_commit (e : Engine) (now : Q) :
  reachable e ->
  isPlaying (gameState e) = false \/ gameOver (gameState e) = true ->
  let e1 := step e (Restart, now) in
  step e (Start, now) = e1
  /\ gameState e1 = handleRestart (gameState e)
  /\ playerStateRef e1 = mkPlayer 1 false 0 0
  /\ playerGroupRef e1 = Some (mkGroup 0 0 true)
  /\ obstaclesRef e1 = []
  /\ scoreRef e1 = 0 /\ speedRef e1 = START_SPEED
  /\ lastHitTimeRef e1 = 0%Q /\ lastTimeRef e1 = now
  /\ isPlayingRef e1 = true /\ isPausedRef e1 = false
  /\ obstacleMeshesRef e1 = obstacleMeshesRef e
  /\ lastSpawnTimeRef e1 = lastSpawnTimeRef e.
Proof.
  intros Hr Hd e1. apply reachable_Inv in Hr as [[] [Hpr Hqr]].
  subst e1. unfold step, commitEffects, animationEffect, initEffect,
    animationCleanup. simpl.
  destruct (isPlaying (gameState e)) eqn:Hp;
    destruct (gameOver (gameState e)) eqn:Ho;
    destruct (isPaused (gameState e)) eqn:Hq;
    try (destruct Hd; discriminate); simpl;
    destruct (sceneRef e); simpl; repeat split; reflexivity.
Qed.

(** X3. [Restart] (or [Start]) from a game that is over or not yet
    playing resets the session: lives 3, score 0, no obstacles, speed
    START_SPEED, lastHitTime 0, the loop running from the clock value the
    effects read, the player group at the centre.  The player is grounded
    in the centre lane when no pose sample is held; when one is, the input
    effect runs on it after the reset and the player is the reset player
    with that gesture applied.  The mesh map and [lastSpawnTimeRef] are
    carried over as they are. *)
Theorem restart_resets_session
    (e : Engine) (now : Q) (held : option (Gesture * Q)) :
  reachable e ->
  isPlaying (gameState e) = false \/ gameOver (gameState e) = true ->
  let e' := stepHeld e (Restart, now) held in
  stepHeld e (Start, now) held = e'
  /\ lives (gameState e') = 3 /\ score (gameState e') = 0
  /\ gameOver (gameState e') = false /\ isPaused (gameState e') = false
  /\ playerStateRef e'
     = match held with
       | Some (gesture, poseNow) =>
           applyGesture gesture poseNow (mkPlayer 1 false 0 0)
       | None => mkPlayer 1 false 0 0
       end
  /\ playerGroupRef e' = Some (mkGroup 0 0 true)
  /\ obstaclesRef e' = []
  /\ scoreRef e' = 0 /\ speedRef e' = START_SPEED
  /\ lastHitTimeRef e' = 0%Q /\ lastTimeRef e' = now
  /\ isPlayingRef e' = true /\ isPausedRef e' = false
  /\ obstacleMeshesRef e' = obstacleMeshesRef e
  /\ lastSpawnTimeRef e' = lastSpawnTimeRef e.
Proof.
  intros Hr Hd e'.
  destruct (restart_commit e now Hr Hd)
    as (Hst & Hgs & Hpl & Hgr & Hob & Hsc & Hsp & Hh & Ht & Hp & Hq & Hm & Hls).
  assert (He : e' = match held with
                    | Some (gesture, poseNow) =>
                        set_playerState
                          (applyGesture gesture poseNow (mkPlayer 1 false 0 0))
                          (step e (Restart, now))
                    | None => step e (Restart, now)
                    end).
  { unfold e', stepHeld, inputRerun, inputEffect. rewrite Hgs, Hpl.
    cbn [handleRestart isPlaying gameOver isPaused negb orb].
    destruct Hd as [-> | ->]; cbn [eqb andb]; rewrite ?andb_false_r;
      reflexivity. }
  split; [unfold e', stepHeld; now rewrite Hst |].
  clearbody e'. subst e'.
  destruct held as [[gesture poseNow] |];
    cbn [gameState playerStateRef playerGroupRef obstaclesRef scoreRef
         speedRef lastHitTimeRef lastTimeRef isPlayingRef isPausedRef
         obstacleMeshesRef lastSpawnTimeRef set_playerState];
    rewrite ?Hgs; cbn [handleRestart lives score gameOver isPaused];
    repeat split; assumption || reflexivity.
Qed.

Lemma reachable_approaching : reachable approaching.
Proof. apply reachable_run, reachable_mount. Qed.


Lemma reachable_threeHits : reachable threeHits.
Proof.
  unfold threeHits, hitTwice. do 2 apply reachable_run.
  apply reachable_approaching.
Qed.


Lemma pause_then_resume_restores_state_witness :
  reachable approaching
  /\ stepHeld (stepHeld approaching (Pause, 2700%Q) (Some (LEFT, 2700%Q)))
       (Resume, 2800%Q) (Some (LEFT, 2800%Q))
     = inputEffect LEFT 2800 approaching.
Proof.
  split; [exact reachable_approaching |].
  destruct (pause_then_resume_restores_state approaching 2700 2800
              (Some (LEFT, 2700%Q)) (Some (LEFT, 2800%Q))
              reachable_approaching eq_refl)
    as (_ & H & _).
  exact H.
Defined.

Lemma restart_resets_session_witness :
  reachable threeHits
  /\ lives (gameState (stepHeld threeHits (Restart, 12000%Q)
                         (Some (RIGHT, 12000%Q)))) = 3
  /\ playerStateRef (stepHeld threeHits (Restart, 12000%Q)
                       (Some (RIGHT, 12000%Q)))
     = applyGesture RIGHT 12000 (mkPlayer 1 false 0 0)
  /\ obstaclesRef (stepHeld threeHits (Restart, 12000%Q)
                     (Some (RIGHT, 12000%Q))) = [].
Proof.
  split; [exact reachable_threeHits |].
  destruct (restart_resets_session threeHits 12000 (Some (RIGHT, 12000%Q))
              reachable_threeHits (or_intror eq_refl))
    as (_ & H1 & _ & _ & _ & H3 & _ & H2 & _).
  repeat split; assumption.
Defined.

(** ** The jump *)

(** X4. A JUMP gesture in mid-air is ignored: the running jump keeps its
    start time.  On the ground it starts a jump at the gesture's clock
    value and leaves lane and height as they are; LEFT and RIGHT never
    touch the jump. *)
Theorem jump_gesture_only_from_ground (e : Engine) (now effectNow : Q) :
  reachable e ->
  isPlaying (gameState e) = true -> gameOver (gameState e) = false ->
  isPaused (gameState e) = false ->
  let p := playerStateRef e in
  (isJumping p = true -> step e (Pose JUMP now, effectNow) = e)
  /\ (isJumping p = false ->
      playerStateRef (step e (Pose JUMP now, effectNow))
      = mkPlayer (lane p) true now (yPosition p))
  /\ (forall gesture, gesture = LEFT \/ gesture = RIGHT ->
      let p' := playerStateRef (step e (Pose gesture now, effectNow)) in
      isJumping p' = isJumping p /\ jumpStartTime p' = jumpStartTime p
      /\ yPosition p' = yPosition p).
Proof.
  intros _ Hp Ho Hq p.
  assert (Hs : forall gesture,
             step e (Pose gesture now, effectNow)
             = set_playerState (applyGesture gesture now p) e).
  { intros gesture. unfold step. simpl. unfold inputEffect.
    rewrite Hp, Ho, Hq. simpl.
    apply (commitEffects_same effectNow
             (set_playerState (applyGesture gesture now p) e)). }
  split; [| split].
  - intros Hj. rewrite Hs. simpl. rewrite Hj. simpl.
    subst p. now destruct e.
  - intros Hj. rewrite Hs. simpl. now rewrite Hj.
  - intros gesture [-> | ->] p'; subst p'; rewrite Hs; simpl;
      destruct (_ <? _); repeat split.
Qed.

Lemma Qsquare_nonneg (x : Q) : (0 <= x * x)%Q.
Proof.
  destruct (Qlt_le_dec x 0) as [H | H].
  - assert (Hn : (0 <= - x)%Q) by lra.
    pose proof (Qmult_le_0_compat _ _ Hn Hn) as Hm.
    assert (He : (- x * - x == x * x)%Q) by ring. lra.
  - now apply Qmult_le_0_compat.
Qed.

Lemma jump_progress_scaled (elapsed : Q) :
  (elapsed / 1000 / JUMP_DURATION == elapsed * (1 # 700))%Q.
Proof. unfold JUMP_DURATION. field. Qed.

(** A player at or above the clearance height is not hit in the frame,
    whatever the clock reads. *)
Lemma clear_height_no_hit dt time env e :
  (11 # 10 <= yPosition (playerStateRef (beforeObstacles dt time env e)))%Q ->
  hitState (updateGameLogic dt time env e) = hitState e.
Proof.
  intros Hy. rewrite updateGameLogic_hitState. unfold obstacleLoop.
  rewrite foldl_processObstacle_no_collision.
  - simpl. apply beforeObstacles_hitState.
  - intros o _. simpl.
    destruct (confirmedCollision _ _) eqn:Hc; [| reflexivity].
    apply confirmedCollision_true in Hc. exfalso. lra.
Qed.

(** X5. The height of a jump is not negative once the frame time has
    reached the start of the jump; a frame whose timestamp is earlier than
    the start of the jump puts the player below the floor.  Between 70 ms
    and 630 ms after the start the player is at or above the clearance
    height 1.1 and the frame applies no hit; in the first 56 ms and from
    644 ms on the player is below it. *)
Theorem jump_clearance_window
    (e : Engine) (dt time : Q) (env : FrameEnv) :
  reachable e ->
  isJumping (playerStateRef e) = true ->
  let elapsed := (time - jumpStartTime (playerStateRef e))%Q in
  let e' := updateGameLogic dt time env e in
  let y' := yPosition (playerStateRef e') in
  ((0 <= elapsed)%Q -> (0 <= y')%Q)
  /\ ((elapsed < 0)%Q -> (y' < 0)%Q)
  /\ ((70 <= elapsed <= 630)%Q ->
      (11 # 10 <= y')%Q /\ hitState e' = hitState e)
  /\ ((0 <= elapsed <= 56)%Q \/ (644 <= elapsed)%Q -> (y' < 11 # 10)%Q).
Proof.
  intros Hr Hj elapsed e' y'.
  apply reachable_Inv in Hr as [[_ _ _ _ Hg _ _ _] _].
  assert (Hp : playerStateRef e' = jumpPhysics time (playerStateRef e))
    by (now apply updateGameLogic_player).
  assert (Hp0 : playerStateRef (beforeObstacles dt time env e)
                = jumpPhysics time (playerStateRef e)).
  { rewrite beforeObstacles_player. destruct Hg as [g ->]. reflexivity. }
  pose proof (jump_progress_scaled elapsed) as Ht.
  assert (Hy : if Qltb (elapsed / 1000) JUMP_DURATION
               then y' = (JUMP_HEIGHT * 4 * (elapsed / 1000 / JUMP_DURATION)
                          * (1 - elapsed / 1000 / JUMP_DURATION))%Q
               else y' = 0%Q).
  { subst y'. rewrite Hp. unfold jumpPhysics. rewrite Hj. fold elapsed.
    destruct (Qltb _ _); reflexivity. }
  assert (Hclear : (11 # 10 <= y')%Q -> hitState e' = hitState e).
  { intros H. apply clear_height_no_hit. now rewrite Hp0, <- Hp. }
  clearbody e' y'. clear Hp Hp0.
  set (t := (elapsed / 1000 / JUMP_DURATION)%Q) in *.
  assert (Hd : (elapsed / 1000 == elapsed * (1 # 1000))%Q) by field.
  destruct (Qltb (elapsed / 1000) JUMP_DURATION) eqn:Hlt.
  - apply Qltb_lt in Hlt. unfold JUMP_DURATION in Hlt. rewrite Hd in Hlt.
    assert (He : (elapsed < 700)%Q) by lra.
    rewrite Hy. unfold JUMP_HEIGHT. clearbody t.
    split; [| split; [| split]].
    + intros H.
      assert (H1 : (0 <= t)%Q) by lra. assert (H2 : (0 <= 1 - t)%Q) by lra.
      pose proof (Qmult_le_0_compat _ _ H1 H2). lra.
    + intros H.
      assert (H1 : (0 <= - t)%Q) by lra.
      pose proof (Qmult_le_0_compat _ _ H1 H1). lra.
    + intros H.
      assert (H1 : (0 <= t - (1 # 10))%Q) by lra.
      assert (H2 : (0 <= (9 # 10) - t)%Q) by lra.
      pose proof (Qmult_le_0_compat _ _ H1 H2).
      assert (Hc : (11 # 10 <= (7 # 2) * 4 * t * (1 - t))%Q) by lra.
      split; [exact Hc |]. apply Hclear. rewrite Hy. exact Hc.
    + intros [H | H].
      * assert (H1 : (0 <= (92 # 100) - t)%Q) by lra.
        assert (H2 : (0 <= (8 # 100) - t)%Q) by lra.
        pose proof (Qmult_le_0_compat _ _ H1 H2). lra.
      * assert (H1 : (0 <= t - (92 # 100))%Q) by lra.
        assert (H2 : (0 <= t - (8 # 100))%Q) by lra.
        pose proof (Qmult_le_0_compat _ _ H1 H2). lra.
  - apply Qltb_ge in Hlt. unfold JUMP_DURATION in Hlt. rewrite Hd in Hlt.
    assert (He : (700 <= elapsed)%Q) by lra.
    rewrite Hy. unfold JUMP_HEIGHT.
    split; [intros _; lra |]. split; [intros H; lra |].
    split; [intros H; lra |]. intros _. lra.
Qed.

Lemma jump_clearance_window_witness :
  reachable jumping
  /\ isJumping (playerStateRef jumping) = true
  /\ lives (gameState (updateGameLogic 0 1400 centreEnv jumping))
     = lives (gameState jumping).
Proof.
  assert (H1 : reachable jumping) by (apply reachable_run, reachable_mount).
  split; [exact H1 |]. split; [reflexivity |].
  destruct (jump_clearance_window jumping 0 1400 centreEnv H1 eq_refl)
    as (_ & _ & Hc & _).
  destruct Hc as [_ Hh]; [vm_compute; split; discriminate |].
  apply hitState_eq in Hh as (_ & -> & _). reflexivity.
Defined.

Lemma jump_gesture_only_from_ground_witness :
  reachable jumping
  /\ step jumping (Pose JUMP 1300, 1300%Q) = jumping.
Proof.
  assert (H1 : reachable jumping) by (apply reachable_run, reachable_mount).
  split; [exact H1 |].
  destruct (jump_gesture_only_from_ground jumping 1300 1300 H1
              eq_refl eq_refl eq_refl) as (Hmid & _).
  apply Hmid. reflexivity.
Defined.

(** ** The visual position of the player *)

Lemma updateGameLogic_group dt time env e g :
  playerGroupRef e = Some g ->
  exists visible,
    playerGroupRef (updateGameLogic dt time env e)
    = Some (mkGroup
              (group_x g
               + ((inject_Z (lane (playerStateRef e)) - 1) * LANE_WIDTH
                  - group_x g) * 10 * dt)%Q
              (yPosition (jumpPhysics time (playerStateRef e))) visible).
Proof.
  intros Hg.
  pose proof (retire_fixed
                (obstacleLoop dt (nowAt env) (beforeObstacles dt time env e)))
    as Hr.
  pose proof (obstacleLoop_fixed dt (nowAt env)
                (beforeObstacles dt time env e)) as Hl.
  assert (Hb : exists visible,
             playerGroupRef (beforeObstacles dt time env e)
             = Some (mkGroup
                       (group_x g
                        + ((inject_Z (lane (playerStateRef e)) - 1) * LANE_WIDTH
                           - group_x g) * 10 * dt)%Q
                       (yPosition (jumpPhysics time (playerStateRef e)))
                       visible)).
  { unfold beforeObstacles, updatePlayer, spawnObstacle. simpl. rewrite Hg.
    simpl.
    exists (if Qltb (time - lastHitTimeRef e) INVINCIBILITY_DURATION
            then Z.rem (Qfloor (time / 100)) 2 =? 0 else true).
    destruct (spawnDue _ _); [| reflexivity]. simpl.
    destruct (sceneRef e); [| reflexivity].
    destruct (lavaMaterialRef e); reflexivity. }
  destruct Hb as [visible Hb]. exists visible.
  unfold updateGameLogic, retireFixed, loopFixed in *. congruence.
Qed.

(** X6. Each frame sets the player's visual y to the player's height and
    moves the visual x by the code's step, 10 dt times the distance to the
    x of the logical lane.  For dt >= 0 the move is towards the lane; up
    to 0.09 s the player does not go past the lane and ends no farther
    from it; from 0.3 s on the player ends at least as far from the lane
    as before, on the other side. *)
Theorem lane_lerp_moves_towards_lane
    (e : Engine) (dt time : Q) (env : FrameEnv) (g : PlayerGroup) :
  playerGroupRef e = Some g ->
  let target := ((inject_Z (lane (playerStateRef e)) - 1) * LANE_WIDTH)%Q in
  let e' := updateGameLogic dt time env e in
  exists g',
    playerGroupRef e' = Some g'
    /\ group_y g' = yPosition (playerStateRef e')
    /\ group_x g' = (group_x g + (target - group_x g) * 10 * dt)%Q
    /\ ((0 <= dt)%Q ->
        (0 <= (group_x g' - group_x g) * (target - group_x g))%Q)
    /\ ((0 <= dt <= 9 # 100)%Q ->
        (Qabs (target - group_x g') <= Qabs (target - group_x g))%Q
        /\ (0 <= (target - group_x g') * (target - group_x g))%Q)
    /\ ((3 # 10 <= dt)%Q ->
        (Qabs (target - group_x g) <= Qabs (target - group_x g'))%Q
        /\ ((target - group_x g') * (target - group_x g) <= 0)%Q).
Proof.
  intros Hg target e'.
  destruct (updateGameLogic_group dt time env e g Hg) as [visible Hg'].
  fold e' target in Hg'.
  assert (Hp : playerStateRef e' = jumpPhysics time (playerStateRef e))
    by (apply updateGameLogic_player; rewrite Hg; eauto).
  exists (mkGroup (group_x g + (target - group_x g) * 10 * dt)%Q
            (yPosition (jumpPhysics time (playerStateRef e))) visible).
  clearbody e' target. cbn [group_x group_y].
  set (d := (target - group_x g)%Q).
  assert (Hd : (target - (group_x g + d * 10 * dt) == (1 - 10 * dt) * d)%Q)
    by (unfold d; ring).
  assert (Ha : (Qabs (target - (group_x g + d * 10 * dt))
                == Qabs (1 - 10 * dt) * Qabs d)%Q).
  { etransitivity; [apply Qabs_wd; exact Hd | apply Qabs_Qmult]. }
  pose proof (Qsquare_nonneg d) as Hsq.
  pose proof (Qabs_nonneg d) as Hn.
  split; [exact Hg' |]. split; [now rewrite Hp |]. split; [reflexivity |].
  split; [| split].
  - intros H.
    assert (H1 : (0 <= 10 * dt)%Q) by lra.
    pose proof (Qmult_le_0_compat _ _ H1 Hsq).
    assert (H2 : ((group_x g + d * 10 * dt - group_x g) * d
                  == 10 * dt * (d * d))%Q) by ring.
    lra.
  - intros H. split.
    + rewrite Ha, (Qabs_pos (1 - 10 * dt)) by lra.
      assert (H1 : (0 <= 10 * dt)%Q) by lra.
      pose proof (Qmult_le_0_compat _ _ H1 Hn). lra.
    + rewrite Hd.
      assert (H1 : (0 <= 1 - 10 * dt)%Q) by lra.
      pose proof (Qmult_le_0_compat _ _ H1 Hsq).
      assert (H2 : ((1 - 10 * dt) * d * d == (1 - 10 * dt) * (d * d))%Q)
        by ring.
      lra.
  - intros H. split.
    + rewrite Ha, (Qabs_neg (1 - 10 * dt)) by lra.
      assert (H1 : (0 <= 10 * dt - 2)%Q) by lra.
      pose proof (Qmult_le_0_compat _ _ H1 Hn). lra.
    + rewrite Hd.
      assert (H1 : (0 <= 10 * dt - 1)%Q) by lra.
      pose proof (Qmult_le_0_compat _ _ H1 Hsq).
      assert (H2 : ((1 - 10 * dt) * d * d == - ((10 * dt - 1) * (d * d)))%Q)
        by ring.
      lra.
Qed.

Lemma lane_lerp_moves_towards_lane_witness :
  playerGroupRef sidestepped = Some (mkGroup (0 # 2000) 0 true)
  /\ exists g',
      playerGroupRef (updateGameLogic (1 # 20) 2800 centreEnv sidestepped)
      = Some g'
      /\ (group_x g' == - (7 # 4))%Q.
Proof.
  assert (H1 : playerGroupRef sidestepped = Some (mkGroup (0 # 2000) 0 true))
    by (vm_compute; reflexivity).
  split; [exact H1 |].
  destruct (lane_lerp_moves_towards_lane sidestepped (1 # 20) 2800 centreEnv
              _ H1)
    as (g' & Hg' & _ & Hx & _).
  exists g'. split; [exact Hg' |].
  rewrite Hx. vm_compute. reflexivity.
Defined.

(** ** Spawning *)






Lemma Qfloor_eq_iff (x : Q) (n : Z) :
  Qfloor x = n <-> (inject_Z n <= x < inject_Z (n + 1))%Q.
Proof.
  split.
  - intros <-. split; [apply Qfloor_le | apply Qlt_floor].
  - intros [Hlo Hhi].
    pose proof (Qfloor_le x) as H1. pose proof (Qlt_floor x) as H2.
    assert (Ha : (inject_Z n < inject_Z (Qfloor x + 1))%Q) by lra.
    assert (Hb : (inject_Z (Qfloor x) < inject_Z (n + 1))%Q) by lra.
    rewrite <- Zlt_Qlt in Ha, Hb. lia.
Qed.

Lemma Qfloor_between (x : Q) (n : Z) (lo hi : Q) :
  lo = inject_Z n -> hi = inject_Z (n + 1) ->
  Qfloor x = n <-> (lo <= x < hi)%Q.
Proof. intros -> ->. apply Qfloor_eq_iff. Qed.

(** X8. For a draw r in [0, 1) the lane of a spawned obstacle is 0, 1 or
    2: 0 for a draw up to 0.33, 1 for a draw from 0.34 to 0.66, 2 for a
    draw from 0.67.  The obstacle is appended to the list, not yet passed,
    at the given z, and its mesh is registered under its id at
    x = (lane - 1) * LANE_WIDTH with a handle that no earlier mesh has.
    Without a scene or a lava material nothing is spawned. *)
Theorem spawned_obstacle_lane_and_mesh
    (e : Engine) (z r : Q) (id : string) :
  (0 <= r < 1)%Q ->
  let lane := Qfloor (r * 3) in
  let e' := spawnObstacle z r id e in
  (lane = 0 \/ lane = 1 \/ lane = 2)
  /\ ((r <= 33 # 100)%Q -> lane = 0)
  /\ ((34 # 100 <= r <= 66 # 100)%Q -> lane = 1)
  /\ ((67 # 100 <= r)%Q -> lane = 2)
  /\ (is_Some (sceneRef e) -> lavaMaterialRef e = true ->
      obstaclesRef e' = obstaclesRef e ++ [mkObstacle id lane z false]
      /\ obstacleMeshesRef e' !! id
         = Some (mkMesh (allocated e)
                   ((inject_Z lane - 1) * LANE_WIDTH)%Q z)
      /\ (forall id2, id2 <> id ->
          obstacleMeshesRef e' !! id2 = obstacleMeshesRef e !! id2)
      /\ allocated e' = S (allocated e))
  /\ (sceneRef e = None \/ lavaMaterialRef e = false -> e' = e).
Proof.
  intros Hr lane e'.
  assert (H0 : lane = 0 <-> (r < 1 # 3)%Q).
  { unfold lane. rewrite (Qfloor_between (r * 3) 0 0 1 eq_refl eq_refl).
    split; intros H; lra. }
  assert (H1 : lane = 1 <-> (1 # 3 <= r < 2 # 3)%Q).
  { unfold lane. rewrite (Qfloor_between (r * 3) 1 1 2 eq_refl eq_refl).
    split; intros H; lra. }
  assert (H2 : lane = 2 <-> (2 # 3 <= r)%Q).
  { unfold lane. rewrite (Qfloor_between (r * 3) 2 2 3 eq_refl eq_refl).
    split; intros H; lra. }
  split; [| split; [| split; [| split]]].
  - destruct (Qlt_le_dec r (1 # 3)) as [Ha | Ha]; [left; now apply H0 |].
    destruct (Qlt_le_dec r (2 # 3)) as [Hb | Hb];
      [right; left; apply H1; split; assumption | right; right; now apply H2].
  - intros H. apply H0. lra.
  - intros H. apply H1. lra.
  - intros H. apply H2. lra.
  - split.
    + intros Hs Hl.
      destruct (spawnObstacle_spec z r id e Hs Hl) as (Ho & Hm & Ha & _).
      fold e' lane in Ho, Hm, Ha. clearbody e' lane.
      split; [exact Ho |]. rewrite Hm.
      split; [apply lookup_insert_eq |].
      split; [| exact Ha].
      intros id2 Hne. apply lookup_insert_ne. congruence.
    + unfold e', spawnObstacle. intros [-> | Hl]; [reflexivity |].
      rewrite Hl. now destruct (sceneRef e).
Qed.

Lemma spawned_obstacle_lane_and_mesh_witness :
  (0 <= 9 # 10 < 1)%Q
  /\ map obs_lane (obstaclesRef (spawnObstacle (-60) (9 # 10) "0.9" approaching))
     = map obs_lane (obstaclesRef approaching) ++ [2].
Proof.
  assert (H1 : (0 <= 9 # 10 < 1)%Q) by (split; [discriminate | reflexivity]).
  split; [exact H1 |].
  destruct (spawned_obstacle_lane_and_mesh approaching (-60) (9 # 10) "0.9" H1)
    as (_ & _ & _ & _ & Hs & _).
  destruct Hs as (-> & _); [vm_compute; eauto | reflexivity |].
  rewrite map_app. reflexivity.
Defined.

(** ** Hits, for any clock *)

(** X9. While every reading of the clock in a frame is within
    INVINCIBILITY_DURATION of the last hit, the frame takes no life, does
    not move lastHitTime and does not call the damage hook, however many
    obstacles overlap the player. *)
Theorem no_hit_inside_invincibility_window
    (e : Engine) (dt time : Q) (env : FrameEnv) :
  (forall k, (nowAt env k - lastHitTimeRef e <= INVINCIBILITY_DURATION)%Q) ->
  hitState (updateGameLogic dt time env e) = hitState e.
Proof.
  intros Hw. rewrite updateGameLogic_hitState, <- (beforeObstacles_hitState dt time env e).
  unfold obstacleLoop.
  apply (foldl_invariant
           (fun lp => hitState (lp_engine lp)
                      = hitState (beforeObstacles dt time env e)));
    [| reflexivity].
  intros lp obs Hlp. rewrite processObstacle_hitState.
  destruct (confirmedCollision _ _); [| exact Hlp].
  rewrite applyHit_hitState.
  assert (Hg : gateOpen (nowAt env (lp_calls lp)) (lp_engine lp) = false).
  { unfold gateOpen. apply Qltb_ge.
    replace (lastHitTimeRef (lp_engine lp)) with (lastHitTimeRef e).
    - apply Hw.
    - rewrite beforeObstacles_hitState in Hlp.
      apply hitState_eq in Hlp as (-> & _). reflexivity. }
  rewrite Hg. exact Hlp.
Qed.

Lemma no_hit_inside_invincibility_window_witness :
  let hit := step approaching (Frame 5000 hitEnv, 5000%Q) in
  (forall k, (nowAt soonEnv k - lastHitTimeRef hit <= INVINCIBILITY_DURATION)%Q)
  /\ lives (gameState (updateGameLogic (1 # 100) 5010 soonEnv hit))
     = lives (gameState hit).
Proof.
  cbv zeta.
  assert (H1 : forall k,
             (nowAt soonEnv k
              - lastHitTimeRef (step approaching (Frame 5000 hitEnv, 5000%Q))
              <= INVINCIBILITY_DURATION)%Q).
  { intros k. apply Qle_bool_iff. vm_compute. reflexivity. }
  split; [exact H1 |].
  pose proof (no_hit_inside_invincibility_window
                (step approaching (Frame 5000 hitEnv, 5000%Q))
                (1 # 100) 5010 soonEnv H1) as Hh.
  apply hitState_eq in Hh as (_ & -> & _). reflexivity.
Defined.

Lemma loseLife_lives_max s gs :
  0 <= lives gs -> lives (loseLife s gs) = Z.max 0 (lives gs - 1).
Proof.
  intros H. unfold loseLife. destruct (lives gs - 1 <=? 0) eqn:Hc; simpl.
  - apply Z.leb_le in Hc. lia.
  - apply Z.leb_gt in Hc. lia.
Qed.

(** X10. Whatever the clock reads, a frame never adds a life and never
    lowers the score, and the lives after it are the lives before it less
    the number of calls of the damage hook in it, but not below 0. *)
Theorem lives_drop_by_damage_calls
    (e : Engine) (dt time : Q) (env : FrameEnv) :
  0 <= lives (gameState e) ->
  let e' := updateGameLogic dt time env e in
  (damageSounds e <= damageSounds e')%nat
  /\ lives (gameState e')
     = Z.max 0 (lives (gameState e)
                - Z.of_nat (damageSounds e' - damageSounds e))
  /\ lives (gameState e') <= lives (gameState e)
  /\ scoreRef e <= scoreRef e'.
Proof.
  intros Hl e'.
  pose proof (updateGameLogic_hitState dt time env e) as Hu.
  pose proof (beforeObstacles_hitState dt time env e) as Hb.
  fold e' in Hu.
  assert (Hs : scoreRef e <= scoreRef e')
    by (unfold e'; rewrite updateGameLogic_score; lia).
  assert (Hloop :
    let e1 := lp_engine (obstacleLoop dt (nowAt env)
                           (beforeObstacles dt time env e)) in
    (damageSounds e <= damageSounds e1)%nat
    /\ lives (gameState e1)
       = Z.max 0 (lives (gameState e)
                  - Z.of_nat (damageSounds e1 - damageSounds e))).
  { unfold obstacleLoop.
    apply (foldl_invariant
             (fun lp =>
                (damageSounds e <= damageSounds (lp_engine lp))%nat
                /\ lives (gameState (lp_engine lp))
                   = Z.max 0 (lives (gameState e)
                              - Z.of_nat (damageSounds (lp_engine lp)
                                          - damageSounds e)))).
    - intros lp obs [H1 H2].
      pose proof (processObstacle_hitState dt (nowAt env) lp obs) as Hh.
      cbv zeta in Hh. rewrite applyHit_hitState in Hh.
      destruct (confirmedCollision _ _);
        [destruct (gateOpen _ _) |];
        apply (f_equal (fun x => (snd (fst x), snd x))) in Hh;
        simpl in Hh; injection Hh as Hg Hd; rewrite Hg, Hd;
        try (split; assumption).
      rewrite loseLife_lives_max by lia. split; lia.
    - simpl. apply hitState_eq in Hb as (_ & -> & ->).
      rewrite Nat.sub_diag. split; lia. }
  cbv zeta in Hloop. destruct Hloop as [H1 H2].
  apply hitState_eq in Hu as (_ & Hg & Hd). clearbody e'.
  rewrite Hg, Hd. split; [exact H1 |]. split; [exact H2 |].
  split; [rewrite H2; lia | exact Hs].
Qed.

Lemma lives_drop_by_damage_calls_witness :
  0 <= lives (gameState approaching)
  /\ lives (gameState (updateGameLogic (24 # 10) 5000 hitEnv approaching))
     <= lives (gameState approaching).
Proof.
  assert (H1 : 0 <= lives (gameState approaching))
    by (vm_compute; discriminate).
  split; [exact H1 |].
  apply (lives_drop_by_damage_calls approaching (24 # 10) 5000 hitEnv H1).
Defined.

(** ** Meshes and obstacles *)

Lemma Rendered_ext e e' : renderRefs e' = renderRefs e -> Rendered e -> Rendered e'.
Proof.
  unfold renderRefs. intros H [Hs Hf Hi].
  assert (H1 : sceneRef e' = sceneRef e) by congruence.
  assert (H2 : obstacleMeshesRef e' = obstacleMeshesRef e) by congruence.
  assert (H3 : allocated e' = allocated e) by congruence.
  split; unfold meshHandle in *; rewrite ?H1, ?H2, ?H3; assumption.
Qed.

Lemma shown_ext e e' id : renderRefs e' = renderRefs e -> shown e id -> shown e' id.
Proof.
  unfold renderRefs, shown, meshHandle. intros H (h & sc & H1 & H2 & H3).
  exists h, sc.
  replace (obstacleMeshesRef e') with (obstacleMeshesRef e) by congruence.
  replace (sceneRef e') with (sceneRef e) by congruence. auto.
Qed.

Lemma spawnObstacle_Rendered z r id e :
  Rendered e -> lavaMaterialRef e = true ->
  let e' := spawnObstacle z r id e in
  Rendered e' /\ shown e' id /\ (forall id', shown e id' -> shown e' id').
Proof.
  intros [(sc & Hsc & Hnd & Hlt) Hf Hi] Hl e'.
  assert (Hs : is_Some (sceneRef e)) by (rewrite Hsc; eauto).
  destruct (spawnObstacle_spec z r id e Hs Hl) as (_ & Hm & Ha & _ & _).
  assert (Hscene : sceneRef e' = Some (sc ++ [allocated e])).
  { unfold e', spawnObstacle. rewrite Hsc, Hl. reflexivity. }
  fold e' in Hm, Ha. clearbody e'.
  assert (Hh : forall id', meshHandle e' id'
                 = if decide (id = id') then Some (allocated e)
                   else meshHandle e id').
  { intros id'. unfold meshHandle. rewrite Hm, lookup_insert.
    destruct (decide (id = id')); reflexivity. }
  split; [split |].
  - exists (sc ++ [allocated e]). split; [exact Hscene |]. split.
    + apply NoDup_app. split; [exact Hnd |]. split; [| apply NoDup_singleton].
      intros h Hin Hin'. apply list_elem_of_singleton in Hin'. subst h.
      apply Hlt in Hin. lia.
    + intros h Hin. rewrite Ha. apply elem_of_app in Hin as [Hin | Hin].
      * apply Hlt in Hin. lia.
      * apply list_elem_of_singleton in Hin. lia.
  - intros id' h. rewrite Hh, Ha. destruct (decide (id = id')).
    + intros [= <-]. lia.
    + intros H. apply Hf in H. lia.
  - intros id1 id2 h. rewrite !Hh.
    destruct (decide (id = id1)), (decide (id = id2)); intros H1 H2.
    + congruence.
    + injection H1 as <-. apply Hf in H2. lia.
    + injection H2 as <-. apply Hf in H1. lia.
    + eapply Hi; eassumption.
  - split.
    + exists (allocated e), (sc ++ [allocated e]).
      rewrite Hh, decide_True by reflexivity.
      split; [reflexivity |]. split; [exact Hscene |].
      apply elem_of_app. right. now apply list_elem_of_singleton.
    + intros id' (h & sc0 & H1 & H2 & H3).
      rewrite Hsc in H2. injection H2 as <-.
      destruct (decide (id = id')) as [<- | Hne].
      * exists (allocated e), (sc ++ [allocated e]).
        rewrite Hh, decide_True by reflexivity.
        split; [reflexivity |]. split; [exact Hscene |].
        apply elem_of_app. right. now apply list_elem_of_singleton.
      * exists h, (sc ++ [allocated e]).
        rewrite Hh, decide_False by exact Hne.
        split; [exact H1 |]. split; [exact Hscene |].
        apply elem_of_app. now left.
Qed.

Lemma beforeObstacles_shown dt time env e :
  Rendered e -> lavaMaterialRef e = true ->
  Forall (λ o, shown e (obs_id o)) (obstaclesRef e) ->
  let e0 := beforeObstacles dt time env e in
  Rendered e0 /\ Forall (λ o, shown e0 (obs_id o)) (obstaclesRef e0).
Proof.
  intros Hr Hl Hall e0.
  set (e2 := updatePlayer dt time (set_speed (difficulty (scoreRef e)) e)).
  assert (H2 : renderRefs e2 = renderRefs e
               /\ lavaMaterialRef e2 = true /\ obstaclesRef e2 = obstaclesRef e).
  { unfold e2, updatePlayer. simpl. destruct (playerGroupRef e); auto. }
  destruct H2 as (H2 & Hl2 & Ho2).
  pose proof (Rendered_ext e e2 H2 Hr) as Hr2.
  assert (Hall2 : Forall (λ o, shown e2 (obs_id o)) (obstaclesRef e2)).
  { rewrite Ho2. eapply Forall_impl; [exact Hall |].
    intros o. now apply shown_ext. }
  unfold e0, beforeObstacles. fold e2. clearbody e2.
  destruct (spawnDue time e2); [| split; assumption].
  destruct (spawnObstacle_Rendered SPAWN_DISTANCE (rndLane env) (rndId env)
              e2 Hr2 Hl2) as (Hr3 & Hnew & Hold).
  assert (Hs2 : is_Some (sceneRef e2)).
  { destruct Hr2 as [(sc & -> & _) _ _]. eauto. }
  destruct (spawnObstacle_spec SPAWN_DISTANCE (rndLane env) (rndId env) e2
              Hs2 Hl2) as (Ho & _).
  set (e3 := spawnObstacle SPAWN_DISTANCE (rndLane env) (rndId env) e2) in *.
  clearbody e3.
  split.
  - apply (Rendered_ext e3); [reflexivity | exact Hr3].
  - simpl. rewrite Ho. apply Forall_app. split.
    + eapply Forall_impl; [exact Hall2 |]. intros o Hsh.
      apply (shown_ext e3); [reflexivity | now apply Hold].
    + apply Forall_cons. split; [| apply Forall_nil_2]. simpl.
      apply (shown_ext e3); [reflexivity | exact Hnew].
Qed.

Lemma syncMesh_renderRefs obs e id :
  meshHandle (syncMesh obs e) id = meshHandle e id
  /\ sceneRef (syncMesh obs e) = sceneRef e
  /\ allocated (syncMesh obs e) = allocated e.
Proof.
  unfold syncMesh, meshHandle.
  destruct (obstacleMeshesRef e !! obs_id obs) as [m |] eqn:Hm;
    [| repeat split].
  simpl. split; [| split; reflexivity].
  rewrite lookup_insert. destruct (decide (obs_id obs = id)) as [<- | _].
  - rewrite Hm. reflexivity.
  - reflexivity.
Qed.

Lemma processObstacle_meshHandle dt clock lp obs id :
  meshHandle (lp_engine (processObstacle dt clock lp obs)) id
  = meshHandle (lp_engine lp) id.
Proof.
  unfold processObstacle, checkCollision, applyHit.
  set (o1 := advance _ _ _).
  destruct (syncMesh_renderRefs o1 (lp_engine lp) id) as (Hm & _).
  destruct (confirmedCollision _ _); [destruct (Qltb INVINCIBILITY_DURATION _) |];
    destruct (Qltb 5 _); try destruct (negb _); exact Hm.
Qed.

Lemma obstacleLoop_meshHandle dt clock e id :
  meshHandle (lp_engine (obstacleLoop dt clock e)) id = meshHandle e id.
Proof.
  unfold obstacleLoop.
  apply (foldl_invariant
           (fun lp => meshHandle (lp_engine lp) id = meshHandle e id));
    [| reflexivity].
  intros lp obs H. now rewrite processObstacle_meshHandle.
Qed.

Lemma obstacleLoop_Rendered dt clock e :
  Rendered e ->
  Rendered (lp_engine (obstacleLoop dt clock e))
  /\ forall id, shown e id -> shown (lp_engine (obstacleLoop dt clock e)) id.
Proof.
  intros [Hs Hf Hi].
  pose proof (obstacleLoop_fixed dt clock e) as Hl. unfold loopFixed in Hl.
  assert (H1 : sceneRef (lp_engine (obstacleLoop dt clock e)) = sceneRef e)
    by congruence.
  assert (H2 : allocated (lp_engine (obstacleLoop dt clock e)) = allocated e)
    by congruence.
  split; [split |].
  - now rewrite H1, H2.
  - intros id h. rewrite obstacleLoop_meshHandle, H2. apply Hf.
  - intros id1 id2 h. rewrite !obstacleLoop_meshHandle. apply Hi.
  - intros id (h & sc & Ha & Hb & Hc). exists h, sc.
    rewrite obstacleLoop_meshHandle, H1. auto.
Qed.

(** What the removal of one id does to the meshes and the scene. *)
Lemma removeObstacleMesh_effect e id :
  let e' := removeObstacleMesh e id in
  meshHandle e' id = None
  /\ (forall id', id' <> id -> meshHandle e' id' = meshHandle e id')
  /\ allocated e' = allocated e
  /\ (forall sc, sceneRef e = Some sc ->
      sceneRef e'
      = Some (match meshHandle e id with
              | Some h => filter (λ x, x ≠ h) sc
              | None => sc
              end)).
Proof.
  unfold removeObstacleMesh, meshHandle.
  destruct (obstacleMeshesRef e !! id) as [m |] eqn:Hm; simpl.
  - destruct (sceneRef e) as [sc0 |] eqn:Hs; simpl;
      (split; [now rewrite lookup_delete_eq |]);
      (split; [intros id' Hne; rewrite lookup_delete_ne by congruence;
               reflexivity |]);
      (split; [reflexivity |]); intros sc; [intros [= <-]; reflexivity
                                           | discriminate].
  - split; [now rewrite lookup_delete_eq |].
    split; [intros id' Hne; rewrite lookup_delete_ne by congruence;
            reflexivity |].
    split; [reflexivity |]. intros sc Hs. exact Hs.
Qed.

Lemma removeObstacleMesh_Rendered e id :
  Rendered e ->
  let e' := removeObstacleMesh e id in
  Rendered e'
  /\ (forall id' h, meshHandle e' id' = Some h -> meshHandle e id' = Some h)
  /\ (forall sc sc', sceneRef e = Some sc -> sceneRef e' = Some sc' ->
      sc' ⊆ sc)
  /\ (forall h sc', meshHandle e id = Some h -> sceneRef e' = Some sc' ->
      h ∉ sc')
  /\ (forall id', id' <> id -> shown e id' -> shown e' id').
Proof.
  intros [(sc & Hsc & Hnd & Hlt) Hf Hi] e'.
  destruct (removeObstacleMesh_effect e id) as (Hnone & Hother & Ha & Hscene).
  fold e' in Hnone, Hother, Ha, Hscene. specialize (Hscene sc Hsc).
  clearbody e'.
  assert (Hsub : forall id' h,
             meshHandle e' id' = Some h -> meshHandle e id' = Some h).
  { intros id' h. destruct (decide (id' = id)) as [-> | Hne].
    - rewrite Hnone. discriminate.
    - now rewrite Hother. }
  assert (Hsc' : exists sc', sceneRef e' = Some sc' /\ sc' ⊆ sc /\ NoDup sc'
                   /\ forall h, meshHandle e id = Some h -> h ∉ sc').
  { destruct (meshHandle e id) as [h0 |].
    - exists (filter (λ x, x ≠ h0) sc). split; [exact Hscene |].
      split; [intros x Hx; now apply list_elem_of_filter in Hx as [_ Hx] |].
      split; [now apply NoDup_filter |].
      intros h [= <-] Hin. apply list_elem_of_filter in Hin as [Hne _].
      now apply Hne.
    - exists sc. split; [exact Hscene |]. split; [reflexivity |].
      split; [exact Hnd | discriminate]. }
  destruct Hsc' as (sc' & Hs' & Hincl & Hnd' & Hgone).
  split; [split |].
  - exists sc'. split; [exact Hs' |]. split; [exact Hnd' |].
    intros h Hin. rewrite Ha. apply Hlt, Hincl, Hin.
  - intros id' h H. rewrite Ha. eapply Hf, Hsub, H.
  - intros id1 id2 h H1 H2. eapply Hi; apply Hsub; eassumption.
  - split; [exact Hsub |]. split; [| split].
    + intros sc0 sc0'. rewrite Hsc, Hs'. intros [= <-] [= <-]. exact Hincl.
    + intros h sc0' Hh. rewrite Hs'. intros [= <-]. now apply Hgone.
    + intros id' Hne (h & sc0 & H1 & H2 & H3).
      rewrite Hsc in H2. injection H2 as <-.
      exists h, sc'. rewrite Hother by exact Hne.
      split; [exact H1 |]. split; [exact Hs' |].
      destruct (meshHandle e id) as [h0 |] eqn:Hh0.
      * rewrite Hscene in Hs'. injection Hs' as <-.
        apply list_elem_of_filter. split; [| exact H3].
        intros ->. apply Hne. eapply Hi; eassumption.
      * rewrite Hscene in Hs'. injection Hs' as <-. exact H3.
Qed.

(** What the removal of a list of ids does. *)
Lemma foldl_removeObstacleMesh_Rendered ids : forall e,
  Rendered e ->
  let e' := foldl removeObstacleMesh e ids in
  Rendered e'
  /\ (forall id' h, meshHandle e' id' = Some h -> meshHandle e id' = Some h)
  /\ (forall sc sc', sceneRef e = Some sc -> sceneRef e' = Some sc' ->
      sc' ⊆ sc)
  /\ (forall id, id ∈ ids ->
      meshHandle e' id = None
      /\ forall h sc', meshHandle e id = Some h -> sceneRef e' = Some sc' ->
           h ∉ sc')
  /\ (forall id', id' ∉ ids -> shown e id' -> shown e' id').
Proof.
  induction ids as [| id0 ids IH]; intros e Hr; simpl.
  - split; [exact Hr |]. split; [auto |]. split.
    + intros sc sc' -> [= <-]. reflexivity.
    + split; [intros id Hin; now apply elem_of_nil in Hin | auto].
  - destruct (removeObstacleMesh_Rendered e id0 Hr)
      as (Hr1 & Hsub1 & Hsc1 & Hgone1 & Hkeep1).
    destruct (removeObstacleMesh_effect e id0) as (Hnone1 & Hother1 & _ & Hsc1').
    destruct (IH (removeObstacleMesh e id0) Hr1)
      as (Hr' & Hsub' & Hsc' & Hgone' & Hkeep').
    set (e1 := removeObstacleMesh e id0) in *.
    set (e' := foldl removeObstacleMesh e1 ids) in *.
    clearbody e' e1.
    assert (Hscene1 : exists sc1, sceneRef e1 = Some sc1).
    { destruct Hr1 as [(sc1 & H & _) _ _]. eauto. }
    destruct Hscene1 as [sc1 Hscene1].
    split; [exact Hr' |]. split; [auto |]. split; [| split].
    + intros sc sc' Hs Hs'. etransitivity;
        [eapply Hsc'; eassumption | eapply Hsc1; eassumption].
    + intros id Hin. apply elem_of_cons in Hin.
      destruct (decide (id = id0)) as [-> | Hne].
      * split.
        -- destruct (meshHandle e' id0) as [h |] eqn:Hh; [| reflexivity].
           apply Hsub' in Hh. congruence.
        -- intros h sc' Hh Hs' Hin'.
           eapply (Hgone1 h sc1 Hh Hscene1).
           eapply Hsc'; eassumption.
      * destruct Hin as [-> | Hin]; [contradiction |].
        destruct (Hgone' id Hin) as [Hn Hg]. split; [exact Hn |].
        intros h sc' Hh Hs'. eapply Hg; [| exact Hs'].
        now rewrite Hother1.
    + intros id' Hnin Hsh. apply not_elem_of_cons in Hnin as [Hne Hnin].
      apply Hkeep'; [exact Hnin |]. now apply Hkeep1.
Qed.

Lemma loseLife_score s gs :
  score (loseLife s gs) = s \/ score (loseLife s gs) = score gs.
Proof. unfold loseLife. destruct (_ <=? _); simpl; auto. Qed.

Lemma obstacleLoop_scores dt clock e :
  (10 | scoreRef e) -> (10 | score (gameState e)) ->
  (10 | scoreRef (lp_engine (obstacleLoop dt clock e)))
  /\ (10 | score (gameState (lp_engine (obstacleLoop dt clock e)))).
Proof.
  intros H1 H2. unfold obstacleLoop.
  apply (foldl_invariant
           (fun lp => (10 | scoreRef (lp_engine lp))
                      /\ (10 | score (gameState (lp_engine lp)))));
    [| split; assumption].
  intros lp obs [Ha Hb].
  destruct (processObstacle_content dt clock lp obs) as (_ & _ & Hs).
  pose proof (processObstacle_hitState dt clock lp obs) as Hh.
  cbv zeta in Hs, Hh. rewrite applyHit_hitState in Hh.
  split.
  - rewrite Hs. destruct (awards _ _ _).
    + apply Z.divide_add_r; [exact Ha | apply Z.divide_refl].
    + now rewrite Z.add_0_r.
  - destruct (confirmedCollision _ _); [destruct (gateOpen _ _) |];
      apply (f_equal (fun x => snd (fst x))) in Hh; simpl in Hh;
      rewrite Hh; try exact Hb.
    destruct (loseLife_score (scoreRef (lp_engine lp))
                (gameState (lp_engine lp))) as [-> | ->]; assumption.
Qed.

Lemma updateGameLogic_Bookkeeping dt time env e :
  lavaMaterialRef e = true ->
  Bookkeeping e -> Bookkeeping (updateGameLogic dt time env e).
Proof.
  intros Hl [Hr Hsh Hs10 Hg10].
  destruct (beforeObstacles_shown dt time env e Hr Hl Hsh) as [Hr0 Hsh0].
  destruct (beforeObstacles_kept dt time env e) as (Hk1 & _ & Hk3 & _).
  set (e0 := beforeObstacles dt time env e) in *.
  destruct (obstacleLoop_Rendered dt (nowAt env) e0 Hr0) as [Hr1 Hsh1].
  destruct (obstacleLoop_content dt (nowAt env) e0) as (Hd & Ht & _).
  destruct (obstacleLoop_scores dt (nowAt env) e0) as [Hs1 Hg1];
    [now rewrite Hk1 | now rewrite Hk3 |].
  pose proof (retire_fixed (obstacleLoop dt (nowAt env) e0)) as Hfix.
  pose proof (retire_obstacles (obstacleLoop dt (nowAt env) e0)) as Hobs.
  unfold updateGameLogic. fold e0.
  set (lp := obstacleLoop dt (nowAt env) e0) in *. clearbody lp.
  assert (Hr2 : Rendered (set_obstacles (lp_done lp) (lp_engine lp)))
    by (apply (Rendered_ext (lp_engine lp)); [reflexivity | exact Hr1]).
  destruct (foldl_removeObstacleMesh_Rendered (lp_toRemove lp) _ Hr2)
    as (Hr3 & _ & _ & _ & Hkeep).
  split.
  - eapply Rendered_ext; [| exact Hr3]. reflexivity.
  - rewrite Hobs. apply Forall_forall. intros o' Hin.
    apply list_elem_of_filter in Hin as [Hnot Hin].
    rewrite Hd in Hin. apply list_elem_of_In, in_map_iff in Hin
      as (o & <- & Hin).
    rewrite settle_id in *.
    eapply shown_ext; [| apply Hkeep; [exact Hnot |]].
    + reflexivity.
    + apply (shown_ext (lp_engine lp)); [reflexivity |].
      apply Hsh1. rewrite Forall_forall in Hsh0.
      apply Hsh0. now apply list_elem_of_In.
  - unfold retireFixed in Hfix.
    replace (scoreRef (retire lp)) with (scoreRef (lp_engine lp))
      by congruence.
    exact Hs1.
  - unfold retireFixed in Hfix.
    replace (gameState (retire lp)) with (gameState (lp_engine lp))
      by congruence.
    exact Hg1.
Qed.

Lemma Bookkeeping_ext e e' :
  renderRefs e' = renderRefs e -> obstaclesRef e' = obstaclesRef e ->
  scoreRef e' = scoreRef e -> (10 | score (gameState e')) ->
  Bookkeeping e -> Bookkeeping e'.
Proof.
  intros H1 H2 H3 H4 [Hr Hsh Hs Hg]. split.
  - now apply (Rendered_ext e).
  - rewrite H2. eapply Forall_impl; [exact Hsh |].
    intros o. now apply shown_ext.
  - now rewrite H3.
  - exact H4.
Qed.

Lemma initEffect_Bookkeeping now e :
  Bookkeeping e -> Bookkeeping (initEffect now e).
Proof.
  intros [[(sc & Hsc & Hnd & Hlt) Hf Hi] _ _ Hg]. split; [split | | |].
  - exists []. split; [reflexivity |]. split; [apply NoDup_nil_2 |].
    intros h Hin. now apply elem_of_nil in Hin.
  - exact Hf.
  - exact Hi.
  - apply Forall_nil_2.
  - apply Z.divide_0_r.
  - exact Hg.
Qed.

Lemma commitEffects_Bookkeeping old now e :
  Bookkeeping e -> Bookkeeping (commitEffects old now e).
Proof.
  intros H. unfold commitEffects.
  assert (H1 : Bookkeeping (animationCleanup old e)).
  { unfold animationCleanup. repeat case_match; try exact H.
    apply (Bookkeeping_ext e); try reflexivity; [now destruct H | exact H]. }
  assert (H2 : Bookkeeping
                 (animationEffect now (initEffect now (animationCleanup old e)))).
  { apply initEffect_Bookkeeping with (now := now) in H1.
    unfold animationEffect. repeat case_match; try exact H1.
    eapply Bookkeeping_ext; [| | | | exact H1]; try reflexivity.
    now destruct H1. }
  destruct (eqb (isPlaying old) _ && eqb (gameOver old) _);
    destruct (eqb (isPaused old) _); try assumption.
  - apply (Bookkeeping_ext e); try reflexivity; [now destruct H | exact H].
  - apply (Bookkeeping_ext
             (animationEffect now (initEffect now (animationCleanup old e))));
      try reflexivity; [now destruct H2 | exact H2].
Qed.

Lemma handle_Bookkeeping ev e :
  lavaMaterialRef e = true -> Bookkeeping e -> Bookkeeping (handle ev e).
Proof.
  intros Hl H. destruct ev; simpl.
  1-2: apply (Bookkeeping_ext e); try reflexivity;
    [apply Z.divide_0_r | exact H].
  1-3: apply (Bookkeeping_ext e); try reflexivity; [now destruct H | exact H].
  - unfold inputEffect. case_match; [exact H |].
    apply (Bookkeeping_ext e); try reflexivity; [now destruct H | exact H].
  - unfold animate. repeat case_match; [exact H | |].
    + apply (Bookkeeping_ext e); try reflexivity;
        [now destruct H | exact H].
    + apply updateGameLogic_Bookkeeping; [exact Hl |].
      apply (Bookkeeping_ext e); try reflexivity;
        [now destruct H | exact H].
Qed.

Lemma mount_Bookkeeping now : Bookkeeping (mount now).
Proof.
  unfold mount. split; [split | | |]; simpl.
  - exists []. split; [reflexivity |]. split; [apply NoDup_nil_2 |].
    intros h Hin. now apply elem_of_nil in Hin.
  - intros id h. unfold meshHandle. simpl. now rewrite lookup_empty.
  - intros id1 id2 h. unfold meshHandle. simpl. now rewrite lookup_empty.
  - apply Forall_nil_2.
  - apply Z.divide_0_r.
  - apply Z.divide_0_r.
Qed.

Lemma reachable_Bookkeeping e : reachable e -> Bookkeeping e.
Proof.
  induction 1 as [now | e ev Hr IH]; [apply mount_Bookkeeping |].
  unfold step. apply commitEffects_Bookkeeping, handle_Bookkeeping;
    [| exact IH].
  apply reachable_Inv in Hr as [[] _]. assumption.
Qed.

Lemma meshHandle_Some e id h :
  meshHandle e id = Some h
  <-> exists m, obstacleMeshesRef e !! id = Some m /\ mesh_handle m = h.
Proof.
  unfold meshHandle. rewrite fmap_Some. split; intros (m & H1 & H2); eauto.
Qed.

(** X11. The score accumulator and the score reported to the application
    are multiples of 10 in every reachable state, and the accumulator is
    never negative. *)
Theorem score_is_a_multiple_of_ten (e : Engine) :
  reachable e ->
  (10 | scoreRef e) /\ (10 | score (gameState e)) /\ 0 <= scoreRef e.
Proof.
  intros Hr. pose proof (reachable_Bookkeeping e Hr) as [_ _ H1 H2].
  apply reachable_Inv in Hr as [[H3 _ _ _ _ _ _ _] _]. auto.
Qed.

Lemma score_is_a_multiple_of_ten_witness :
  reachable scored /\ (10 | scoreRef scored).
Proof.
  assert (H1 : reachable scored) by (apply reachable_run, reachable_mount).
  split; [exact H1 |]. apply (score_is_a_multiple_of_ten scored H1).
Defined.

(** X12. In every reachable state each live obstacle has a mesh
    registered under its id and that mesh is in the scene; two ids never
    name the same mesh; and the scene holds no obstacle mesh twice. *)
Theorem live_obstacles_have_a_mesh_in_the_scene (e : Engine) :
  reachable e ->
  (forall o, In o (obstaclesRef e) ->
     exists m sc,
       obstacleMeshesRef e !! obs_id o = Some m
       /\ sceneRef e = Some sc /\ In (mesh_handle m) sc)
  /\ (forall id1 id2 m1 m2,
      obstacleMeshesRef e !! id1 = Some m1 ->
      obstacleMeshesRef e !! id2 = Some m2 ->
      mesh_handle m1 = mesh_handle m2 -> id1 = id2)
  /\ (exists sc, sceneRef e = Some sc /\ NoDup sc).
Proof.
  intros Hr.
  pose proof (reachable_Bookkeeping e Hr)
    as [[(sc & Hsc & Hnd & _) _ Hi] Hsh _ _].
  split; [| split].
  - intros o Hin. rewrite Forall_forall in Hsh.
    destruct (Hsh o) as (h & sc' & H1 & H2 & H3);
      [now apply list_elem_of_In |].
    apply meshHandle_Some in H1 as (m & H1 & <-).
    exists m, sc'. split; [exact H1 |]. split; [exact H2 |].
    now apply list_elem_of_In.
  - intros id1 id2 m1 m2 H1 H2 Heq.
    apply (Hi id1 id2 (mesh_handle m1)); apply meshHandle_Some; eauto.
  - eauto.
Qed.

Lemma live_obstacles_have_a_mesh_in_the_scene_witness :
  reachable approaching
  /\ exists sc, sceneRef approaching = Some sc /\ NoDup sc.
Proof.
  split; [exact reachable_approaching |].
  apply (live_obstacles_have_a_mesh_in_the_scene approaching
           reachable_approaching).
Defined.

(** X13. The frame in which an obstacle's z exceeds 5 deletes the entry
    of its id from the mesh map, removes the mesh that was registered under
    the id from the scene, and drops from the list every obstacle with that
    id. *)
Theorem retirement_removes_mesh_with_obstacle
    (e : Engine) (dt time : Q) (env : FrameEnv) :
  reachable e ->
  let e0 := beforeObstacles dt time env e in
  let e' := updateGameLogic dt time env e in
  forall o, In o (obstaclesRef e0) -> (5 < obs_z o + speedRef e0 * dt)%Q ->
    obstacleMeshesRef e' !! obs_id o = None
    /\ (forall m sc', obstacleMeshesRef e0 !! obs_id o = Some m ->
        sceneRef e' = Some sc' -> ~ In (mesh_handle m) sc')
    /\ (forall o', In o' (obstaclesRef e') -> obs_id o' <> obs_id o).
Proof.
  intros Hr e0 e' o Hin Hz.
  pose proof (reachable_Bookkeeping e Hr) as [Hrd Hsh _ _].
  apply reachable_Inv in Hr as [[_ _ _ _ _ _ Hl _] _].
  destruct (beforeObstacles_shown dt time env e Hrd Hl Hsh) as [Hr0 _].
  fold e0 in Hr0.
  destruct (obstacleLoop_Rendered dt (nowAt env) e0 Hr0) as [Hr1 _].
  destruct (obstacleLoop_content dt (nowAt env) e0) as (Hd & Ht & _).
  pose proof (retire_obstacles (obstacleLoop dt (nowAt env) e0)) as Hobs.
  pose proof (fun id => obstacleLoop_meshHandle dt (nowAt env) e0 id) as Hmh.
  unfold e', updateGameLogic. fold e0.
  set (lp := obstacleLoop dt (nowAt env) e0) in *. clearbody lp.
  assert (Hr2 : Rendered (set_obstacles (lp_done lp) (lp_engine lp)))
    by (apply (Rendered_ext (lp_engine lp)); [reflexivity | exact Hr1]).
  destruct (foldl_removeObstacleMesh_Rendered (lp_toRemove lp) _ Hr2)
    as (_ & _ & _ & Hgone & _).
  assert (Hrem : obs_id o ∈ lp_toRemove lp).
  { rewrite Ht. apply list_elem_of_In, in_map, filter_In.
    split; [exact Hin |]. unfold passes. simpl. now apply Qltb_lt. }
  destruct (Hgone _ Hrem) as [Hnone Hscene].
  split; [| split].
  - unfold retire, meshHandle in *. simpl in *.
    destruct (obstacleMeshesRef _ !! obs_id o); [discriminate | reflexivity].
  - intros m sc' Hm Hs' Hin'. apply (Hscene (mesh_handle m) sc').
    + change (meshHandle (lp_engine lp) (obs_id o) = Some (mesh_handle m)).
      rewrite Hmh. apply meshHandle_Some. eauto.
    + exact Hs'.
    + now apply list_elem_of_In.
  - intros o' Hin' Hid. rewrite Hobs in Hin'.
    apply list_elem_of_In, list_elem_of_filter in Hin' as [Hnot _].
    apply Hnot. now rewrite Hid.
Qed.

Lemma retirement_removes_mesh_with_obstacle_witness :
  reachable sidestepped
  /\ obstacleMeshesRef (updateGameLogic (34 # 10) 6000 rightEnv sidestepped)
       !! "0.5" = None.
Proof.
  assert (H1 : reachable sidestepped)
    by (apply reachable_run, reachable_mount).
  split; [exact H1 |].
  pose proof (retirement_removes_mesh_with_obstacle sidestepped (34 # 10) 6000
                rightEnv H1) as Hret.
  cbv zeta in Hret.
  destruct (Hret (mkObstacle "0.5" 1 (-1800000 # 50000) false)) as (Hnone & _).
  - vm_compute. left. reflexivity.
  - vm_compute. reflexivity.
  - exact Hnone.
Defined.

(** ** Decorations *)



Lemma foldl_processDecoration_content v dt l : forall dl,
  let dl' := foldl (processDecoration v dt) dl l in
  dl_done dl' = dl_done dl ++ map (advanceDecor v dt) l
  /\ dl_toRemove dl'
     = dl_toRemove dl
       ++ map dec_id
            (List.filter (fun x => Qltb 20 (dec_z (advanceDecor v dt x))) l).
Proof.
  induction l as [| dec l IH]; intros dl; simpl.
  - rewrite !app_nil_r. split; reflexivity.
  - destruct (IH (processDecoration v dt dl dec)) as [Hd Hr].
    rewrite Hd, Hr. unfold processDecoration. simpl.
    destruct (Qltb 20 _); simpl;
      rewrite <- !app_assoc; split; reflexivity.
Qed.

Lemma foldl_removeDecorMesh_spec ids : forall d,
  let d' := foldl removeDecorMesh d ids in
  decorationsRef d' = decorationsRef d
  /\ lastDecorSpawnTimeRef d' = lastDecorSpawnTimeRef d
  /\ (forall id, id ∈ ids -> decorationMeshesRef d' !! id = None)
  /\ (forall id, id ∉ ids ->
      decorationMeshesRef d' !! id = decorationMeshesRef d !! id).
Proof.
  induction ids as [| id0 ids IH]; intros d; simpl.
  - split; [reflexivity |]. split; [reflexivity |].
    split; [intros id Hin; now apply elem_of_nil in Hin | reflexivity].
  - destruct (IH (removeDecorMesh d id0)) as (H1 & H2 & H3 & H4).
    split; [exact H1 |]. split; [exact H2 |]. split.
    + intros id Hin. destruct (decide (id ∈ ids)) as [Hi | Hi];
        [now apply H3 |].
      apply elem_of_cons in Hin as [-> | Hin]; [| contradiction].
      rewrite H4 by exact Hi. unfold removeDecorMesh. simpl.
      apply lookup_delete_eq.
    + intros id Hnin. apply not_elem_of_cons in Hnin as [Hne Hnin].
      rewrite H4 by exact Hnin. unfold removeDecorMesh. simpl.
      apply lookup_delete_ne. congruence.
Qed.

(** X15. After the decoration step no decoration is beyond z = 20:
    every decoration left is a decoration of the step's list moved by
    speed * dt, with its id, x, type and rotation unchanged; a decoration
    that moves beyond 20 leaves the list together with every decoration of
    its id, and the mesh map has no entry for that id afterwards.  The step
    adds at most two decorations. *)
Theorem decorations_retire_beyond_twenty
    (d : Decor) (v dt time : Q) (dr1 dr2 : DecorDraws) :
  let d' := updateDecorations v dt time dr1 dr2 d in
  exists spawned,
    (spawned = [] \/ decorScene d = None
     \/ exists a b, spawned = [a; b]
          /\ dec_id a = rndDecorId dr1 /\ dec_id b = rndDecorId dr2)
    /\ (forall x', In x' (decorationsRef d') ->
        (dec_z x' <= 20)%Q
        /\ exists x, In x (decorationsRef d ++ spawned)
             /\ x' = advanceDecor v dt x)
    /\ (forall x, In x (decorationsRef d ++ spawned) ->
        (20 < dec_z x + v * dt)%Q ->
        decorationMeshesRef d' !! dec_id x = None
        /\ forall x', In x' (decorationsRef d') -> dec_id x' <> dec_id x)
    /\ (length (decorationsRef d') <= 2 + length (decorationsRef d))%nat.
Proof.
  intros d'.
  set (d1 :=
         if Qltb (SPAWN_INTERVAL_BASE * 1000 / (v / 15) / 8)%Q
                 (time - lastDecorSpawnTimeRef d)%Q
         then
           let d0 :=
             spawnDecoration (SPAWN_DISTANCE - rndJitter dr2 * 20)%Q dr2
               (spawnDecoration (SPAWN_DISTANCE - rndJitter dr1 * 20)%Q dr1 d)
           in
           mkDecor (decorationsRef d0) (decorationMeshesRef d0) time
             (decorScene d0) (decorAllocated d0)
         else d).
  assert (Hsp : exists spawned,
             decorationsRef d1 = decorationsRef d ++ spawned
             /\ (spawned = [] \/ decorScene d = None
                 \/ exists a b, spawned = [a; b]
                      /\ dec_id a = rndDecorId dr1
                      /\ dec_id b = rndDecorId dr2)
             /\ (length spawned <= 2)%nat).
  { unfold d1. destruct (Qltb _ _).
    - unfold spawnDecoration. destruct (decorScene d) as [sc |] eqn:Hs.
      + simpl. eexists [_; _]. rewrite <- app_assoc. simpl.
        split; [reflexivity |]. split; [| simpl; lia].
        right. right. eexists _, _. repeat split.
      + simpl. rewrite Hs. exists []. rewrite app_nil_r.
        split; [reflexivity |]. split; [auto | simpl; lia].
    - exists []. rewrite app_nil_r.
      split; [reflexivity |]. split; [auto | simpl; lia]. }
  destruct Hsp as (spawned & Hl & Hkind & Hlen).
  exists spawned. split; [exact Hkind |].
  destruct (foldl_processDecoration_content v dt (decorationsRef d1)
              (mkDecorLoop (decorationMeshesRef d1) [] [])) as [Hd Hr].
  simpl in Hd, Hr.
  set (dl := foldl (processDecoration v dt)
               (mkDecorLoop (decorationMeshesRef d1) [] [])
               (decorationsRef d1)) in *.
  destruct (foldl_removeDecorMesh_spec (dl_toRemove dl)
              (mkDecor (dl_done dl) (dl_meshes dl) (lastDecorSpawnTimeRef d1)
                 (decorScene d1) (decorAllocated d1)))
    as (H1 & _ & H3 & _).
  simpl in H1.
  assert (Hlist : decorationsRef d'
                  = filter (λ x, dec_id x ∉ dl_toRemove dl) (dl_done dl)).
  { unfold d', updateDecorations. fold d1. fold dl. simpl. now rewrite H1. }
  assert (Hmesh : forall id, id ∈ dl_toRemove dl ->
                    decorationMeshesRef d' !! id = None).
  { intros id Hin. unfold d', updateDecorations. fold d1. fold dl. simpl.
    now apply H3. }
  rewrite <- Hl. clearbody d' dl d1.
  split; [| split].
  - intros x' Hin. rewrite Hlist in Hin.
    apply list_elem_of_In, list_elem_of_filter in Hin as [Hnot Hin].
    rewrite Hd in Hin.
    apply list_elem_of_In, in_map_iff in Hin as (x & <- & Hin).
    split; [| eauto].
    destruct (Qltb 20 (dec_z (advanceDecor v dt x))) eqn:Hz;
      [| now apply Qltb_ge in Hz].
    exfalso. apply Hnot. rewrite Hr. apply list_elem_of_In.
    change (dec_id (advanceDecor v dt x)) with (dec_id x).
    apply in_map, filter_In. split; assumption.
  - intros x Hin Hz.
    assert (Hrem : dec_id x ∈ dl_toRemove dl).
    { rewrite Hr. apply list_elem_of_In, in_map, filter_In.
      split; [exact Hin |]. simpl. now apply Qltb_lt. }
    split; [now apply Hmesh |].
    intros x' Hin' Hid. rewrite Hlist in Hin'.
    apply list_elem_of_In, list_elem_of_filter in Hin' as [Hnot _].
    apply Hnot. now rewrite Hid.
  - rewrite Hlist. etransitivity; [apply length_filter |].
    rewrite Hd, length_map, Hl, length_app. lia.
Qed.

(** ** The invincibility blink *)

Lemma updateGameLogic_visible dt time env e g :
  playerGroupRef e = Some g ->
  group_visible <$> playerGroupRef (updateGameLogic dt time env e)
  = Some (if Qltb (time - lastHitTimeRef e) INVINCIBILITY_DURATION
          then Z.rem (Qfloor (time / 100)) 2 =? 0
          else true).
Proof.
  intros Hg.
  pose proof (retire_fixed
                (obstacleLoop dt (nowAt env) (beforeObstacles dt time env e)))
    as Hr.
  pose proof (obstacleLoop_fixed dt (nowAt env)
                (beforeObstacles dt time env e)) as Hl.
  assert (Hb : group_visible <$> playerGroupRef (beforeObstacles dt time env e)
               = Some (if Qltb (time - lastHitTimeRef e) INVINCIBILITY_DURATION
                       then Z.rem (Qfloor (time / 100)) 2 =? 0
                       else true)).
  { unfold beforeObstacles, updatePlayer, spawnObstacle. simpl. rewrite Hg.
    simpl. destruct (spawnDue _ _); [| reflexivity]. simpl.
    destruct (sceneRef e); [| reflexivity].
    destruct (lavaMaterialRef e); reflexivity. }
  unfold updateGameLogic, retireFixed, loopFixed in *.
  replace (playerGroupRef
             (retire (obstacleLoop dt (nowAt env)
                        (beforeObstacles dt time env e))))
    with (playerGroupRef (beforeObstacles dt time env e)) by congruence.
  exact Hb.
Qed.

Lemma Qfloor_next_hundred (time : Q) :
  Qfloor ((time + 100) / 100) = Qfloor (time / 100) + 1.
Proof.
  apply Qfloor_eq_iff.
  pose proof (Qfloor_le (time / 100)) as H1.
  pose proof (Qlt_floor (time / 100)) as H2.
  assert (He : ((time + 100) / 100 == time / 100 + 1)%Q) by field.
  rewrite !inject_Z_plus in *. rewrite He.
  change (inject_Z 1) with 1%Q in *. split; lra.
Qed.

(** X16. A frame whose time is 2000 ms or more after the last hit shows
    the player.  Inside the 2000 ms the player is shown exactly when the
    number of whole 100 ms in the frame time is even, so two frames 100 ms
    apart show opposite visibility. *)
Theorem blink_alternates_every_100ms
    (e : Engine) (dt1 dt2 time : Q) (env1 env2 : FrameEnv) (g : PlayerGroup) :
  playerGroupRef e = Some g ->
  let visibleAt dt t env :=
    group_visible <$> playerGroupRef (updateGameLogic dt t env e) in
  ((INVINCIBILITY_DURATION <= time - lastHitTimeRef e)%Q ->
     visibleAt dt1 time env1 = Some true)
  /\ ((time - lastHitTimeRef e < INVINCIBILITY_DURATION)%Q ->
      visibleAt dt1 time env1 = Some (Z.even (Qfloor (time / 100))))
  /\ ((time + 100 - lastHitTimeRef e < INVINCIBILITY_DURATION)%Q ->
      visibleAt dt2 (time + 100)%Q env2
      = negb <$> visibleAt dt1 time env1).
Proof.
  intros Hg visibleAt.
  assert (Hrem : forall n, (Z.rem n 2 =? 0) = Z.even n).
  { intros n. rewrite Zeven_mod.
    destruct (Z.rem n 2 =? 0) eqn:H1; symmetry.
    - apply Z.eqb_eq in H1. apply Z.eqb_eq.
      apply Z.rem_divide in H1; [| lia]. now apply Z.mod_divide.
    - apply Z.eqb_neq in H1. apply Z.eqb_neq. intros H2. apply H1.
      apply Z.mod_divide in H2; [| lia]. now apply Z.rem_divide. }
  unfold visibleAt. rewrite !(updateGameLogic_visible _ _ _ _ g Hg).
  split; [| split].
  - intros H. apply Qltb_ge in H. now rewrite H.
  - intros H. apply Qltb_lt in H. now rewrite H, Hrem.
  - intros H.
    assert (H' : (time - lastHitTimeRef e < INVINCIBILITY_DURATION)%Q) by lra.
    apply Qltb_lt in H, H'. rewrite H, H', !Hrem.
    rewrite Qfloor_next_hundred, Z.even_add.
    cbn [fmap option_fmap option_map]. f_equal.
Qed.

Lemma blink_alternates_every_100ms_witness :
  playerGroupRef jumping = Some (mkGroup 0 0 true)
  /\ group_visible
       <$> playerGroupRef (updateGameLogic (1 # 10) 1100 centreEnv jumping)
     = Some false
  /\ group_visible
       <$> playerGroupRef (updateGameLogic (1 # 10) 2100 centreEnv jumping)
     = Some true.
Proof.
  assert (H1 : playerGroupRef jumping = Some (mkGroup 0 0 true))
    by reflexivity.
  split; [exact H1 |]. split.
  - destruct (blink_alternates_every_100ms jumping (1 # 10) (1 # 10) 1100
                centreEnv centreEnv _ H1) as (_ & Hin & _).
    rewrite Hin; [reflexivity | vm_compute; reflexivity].
  - destruct (blink_alternates_every_100ms jumping (1 # 10) (1 # 10) 2100
                centreEnv centreEnv _ H1) as (Hout & _).
    apply Hout. vm_compute. discriminate.
Defined.
